(** * Joint and chain transform engine of graphics/graphics_robot.py

    A shallow embedding of [DefaultJoint], its four variants and [Robot].
    Python floats are read as real numbers, so every "approximately equal"
    of the specification becomes an equality on [R].  The display library
    (vpython) is modelled by the three things the engine uses from it:
    3D vectors, an arrow, and a display object that stores a pose. *)

From Stdlib Require Import Reals Lra Lia Psatz RNsatz List Bool ZArith.
Import ListNotations.
Open Scope R_scope.

(** ** Angles *)

(** Modelled from the spec: [wrap_to_pi] of graphics/common_functions.py,
    which is imported by the engine but is not among the sources.  The
    specification describes it as the reduction of an angle modulo 2π into
    the interval (−π, π]: the angle is first brought into [0, 2π) by
    subtracting a whole number of turns, and one more turn is subtracted
    when the remainder exceeds π. *)
Definition wrap_to_pi (angle : R) : R :=
  let r := angle - 2 * PI * IZR (Int_part (angle / (2 * PI))) in
  if Rlt_dec PI r then r - 2 * PI else r.

(** [radians(0)] of the constructor. *)
Definition radians (deg : R) : R := deg * PI / 180.

(** The interval every accumulated angle is meant to stay in. *)
Definition in_range (a : R) : Prop := - PI < a <= PI.

(** ** Vectors of the display library *)

Record vector : Type := mkvec { vx : R; vy : R; vz : R }.

Declare Scope vec_scope.
Delimit Scope vec_scope with vec.
Bind Scope vec_scope with vector.

Definition Reqb (a b : R) : bool := if Req_dec_T a b then true else false.

Definition vadd (a b : vector) : vector :=
  mkvec (vx a + vx b) (vy a + vy b) (vz a + vz b).
Definition vsub (a b : vector) : vector :=
  mkvec (vx a - vx b) (vy a - vy b) (vz a - vz b).
Definition vscale (k : R) (a : vector) : vector :=
  mkvec (k * vx a) (k * vy a) (k * vz a).
Definition vdiv (a : vector) (k : R) : vector :=
  mkvec (vx a / k) (vy a / k) (vz a / k).
Definition dot (a b : vector) : R := vx a * vx b + vy a * vy b + vz a * vz b.
Definition cross (a b : vector) : vector :=
  mkvec (vy a * vz b - vz a * vy b)
        (vz a * vx b - vx a * vz b)
        (vx a * vy b - vy a * vx b).

Infix "+v" := vadd (at level 50, left associativity) : vec_scope.
Infix "-v" := vsub (at level 50, left associativity) : vec_scope.

(** [vector.equals]: the three components compared with [==]. *)
Definition equals (a b : vector) : bool :=
  Reqb (vx a) (vx b) && Reqb (vy a) (vy b) && Reqb (vz a) (vz b).

Definition mag (a : vector) : R := sqrt (dot a a).

(** [vector.hat]: the null vector has the null vector as direction. *)
Definition hat (a : vector) : vector :=
  if Rlt_dec 0 (mag a) then vdiv a (mag a) else mkvec 0 0 0.

(** The setter of [vector.mag]: keeps the direction, sets the magnitude. *)
Definition set_mag (a : vector) (value : R) : vector := vscale value (hat a).

(** [vector.rotate(angle, axis)]: the rotation matrix about the direction
    of [axis], applied to the vector. *)
Definition rotate (v : vector) (angle : R) (axis : vector) : vector :=
  let u := hat axis in
  let c := cos angle in
  let s := sin angle in
  let t := 1 - c in
  let x := vx u in
  let y := vy u in
  let z := vz u in
  let m11 := t * x * x + c in
  let m12 := t * x * y - z * s in
  let m13 := t * x * z + y * s in
  let m21 := t * x * y + z * s in
  let m22 := t * y * y + c in
  let m23 := t * y * z - x * s in
  let m31 := t * x * z - y * s in
  let m32 := t * y * z + x * s in
  let m33 := t * z * z + c in
  mkvec (m11 * vx v + m12 * vy v + m13 * vz v)
        (m21 * vx v + m22 * vy v + m23 * vz v)
        (m31 * vx v + m32 * vy v + m33 * vz v).

(** ** Display objects *)

(** The invisible arrow that tracks a joint's position and direction. *)
Record arrow : Type := mkarrow {
  arrow_pos : vector;
  arrow_axis : vector;
  arrow_visible : bool
}.

(** A compound display object: a pose, a bounding box and a flag.  The
    engine reads and writes these fields and nothing else. *)
Record graphic : Type := mkgraphic {
  obj_pos : vector;
  obj_axis : vector;
  obj_up : vector;
  obj_length : R;
  obj_width : R;
  obj_height : R;
  obj_visible : bool
}.

(** The reference-frame indicator: of it the engine touches the pose and
    the flag. *)
Record frame : Type := mkframe {
  frame_pos : vector;
  frame_axis : vector;
  frame_up : vector;
  frame_visible : bool
}.

(** [arrow.rotate(angle, axis)]: no origin is given, so the arrow turns
    about its own position; a null angle returns at once. *)
Definition arrow_rotate (a : arrow) (angle : R) (axis : vector) : arrow :=
  if Reqb angle 0 then a
  else
    let origin := arrow_pos a in
    {| arrow_pos := (origin +v rotate (arrow_pos a -v origin) angle axis)%vec;
       arrow_axis := rotate (arrow_axis a) angle axis;
       arrow_visible := arrow_visible a |}.

(** [compound.rotate(angle, axis, origin)]. *)
Definition obj_rotate (g : graphic) (angle : R) (axis origin : vector)
  : graphic :=
  if Reqb angle 0 then g
  else
    {| obj_pos := (origin +v rotate (obj_pos g -v origin) angle axis)%vec;
       obj_axis := rotate (obj_axis g) angle axis;
       obj_up := rotate (obj_up g) angle axis;
       obj_length := obj_length g;
       obj_width := obj_width g;
       obj_height := obj_height g;
       obj_visible := obj_visible g |}.

(** The placeholder of [__set_graphic]: a box of size (span, 0.1, 0.1)
    along +x wrapped in a compound with origin (0,0,0) and axis (1,0,0);
    the compound keeps the library's default up direction (0,1,0) and takes
    the bounding box of the box. *)
Definition default_box (span : R) : graphic :=
  {| obj_pos := mkvec 0 0 0;
     obj_axis := mkvec 1 0 0;
     obj_up := mkvec 0 1 0;
     obj_length := span;
     obj_width := 1 / 10;
     obj_height := 1 / 10;
     obj_visible := true |}.

(** ** Results of calls that can raise *)

Inductive error : Type := AttributeError | IndexError.

Inductive result (A : Type) : Type :=
| Ok (a : A)
| Raise (e : error).
Arguments Ok {A} a.
Arguments Raise {A} e.

Definition bind {A B : Type} (m : result A) (f : A -> result B) : result B :=
  match m with
  | Ok a => f a
  | Raise e => Raise e
  end.

Notation "x <- m ;; k" := (bind m (fun x => k))
  (at level 61, m at next level, right associativity).

(** ** Joints *)

Record DefaultJoint : Type := mkjoint {
  connect_from : vector;
  connect_to : vector;
  connect_dir : arrow;
  x_vector : vector;
  y_vector : vector;
  z_vector : vector;
  x_rotation : R;
  y_rotation : R;
  z_rotation : R;
  graphic_obj : graphic;
  visible : bool;
  joint_length : R;
  graphic_ref : option frame
}.

(** Modelled from the spec: [draw_reference_frame_axes] of
    graphics/graphics_canvas.py is not among the sources.  The specification
    says of the indicator only that it is drawn at the tool point along the
    joint's axes; this instance does that and is used to run the engine on
    concrete joints. *)
Definition frame_at (origin x_axis_vector : vector) (x_axis_rotation : R)
  : frame :=
  {| frame_pos := origin;
     frame_axis := x_axis_vector;
     frame_up := mkvec 0 1 0;
     frame_visible := true |}.

Section Engine.

(** [draw_reference_frame_axes] of graphics/graphics_canvas.py builds the
    indicator from a point, an x axis and an x rotation.  That module is not
    among the sources; the engine only stores what it returns, so it is
    taken here as given. *)
Variable draw_reference_frame_axes : vector -> vector -> R -> frame.

(** [__set_graphic] *)
Definition set_graphic (from to : vector) (given_obj : option graphic)
  : graphic :=
  match given_obj with
  | None => default_box (mag (to -v from))
  | Some g => g
  end.

(** [__update_reference_frame].  [x_vector] and [y_vector] are the display
    object's own axis and up vectors, so giving them the joint's length
    rescales the object's pose as well. *)
Definition update_reference_frame (j : DefaultJoint) : DefaultJoint :=
  let g := graphic_obj j in
  let x := set_mag (obj_axis g) (joint_length j) in
  let y := set_mag (obj_up g) (joint_length j) in
  let z := set_mag (cross x y) (joint_length j) in
  {| connect_from := connect_from j;
     connect_to := connect_to j;
     connect_dir := connect_dir j;
     x_vector := x;
     y_vector := y;
     z_vector := z;
     x_rotation := x_rotation j;
     y_rotation := y_rotation j;
     z_rotation := z_rotation j;
     graphic_obj :=
       {| obj_pos := obj_pos g;
          obj_axis := x;
          obj_up := y;
          obj_length := obj_length g;
          obj_width := obj_width g;
          obj_height := obj_height g;
          obj_visible := obj_visible g |};
     visible := visible j;
     joint_length := joint_length j;
     graphic_ref := graphic_ref j |}.

(** [DefaultJoint.__init__].  [y_vector] and [z_vector] do not exist before
    the first [__update_reference_frame]; the record starts them at the
    null vector and the update overwrites them. *)
Definition DefaultJoint_init (connection_from_prev_seg connection_to_next_seg
                              axis : vector) (graphic_object : option graphic)
  : DefaultJoint :=
  let g := set_graphic connection_from_prev_seg connection_to_next_seg
                       graphic_object in
  update_reference_frame
    {| connect_from := connection_from_prev_seg;
       connect_to := connection_to_next_seg;
       connect_dir :=
         {| arrow_pos := connection_from_prev_seg;
            arrow_axis :=
              (connection_to_next_seg -v connection_from_prev_seg)%vec;
            arrow_visible := false |};
       x_vector := axis;
       y_vector := mkvec 0 0 0;
       z_vector := mkvec 0 0 0;
       x_rotation := radians 0;
       y_rotation := radians 0;
       z_rotation := radians 0;
       graphic_obj := g;
       visible := true;
       joint_length :=
         Rmax (Rmax (obj_length g) (obj_width g)) (obj_height g);
       graphic_ref :=
         Some (draw_reference_frame_axes connection_to_next_seg axis
                                         (radians 0)) |}.

Definition with_graphic_ref (j : DefaultJoint) (r : option frame)
  : DefaultJoint :=
  {| connect_from := connect_from j;
     connect_to := connect_to j;
     connect_dir := connect_dir j;
     x_vector := x_vector j;
     y_vector := y_vector j;
     z_vector := z_vector j;
     x_rotation := x_rotation j;
     y_rotation := y_rotation j;
     z_rotation := z_rotation j;
     graphic_obj := graphic_obj j;
     visible := visible j;
     joint_length := joint_length j;
     graphic_ref := r |}.

Definition with_graphic_obj (j : DefaultJoint) (g : graphic) : DefaultJoint :=
  {| connect_from := connect_from j;
     connect_to := connect_to j;
     connect_dir := connect_dir j;
     x_vector := x_vector j;
     y_vector := y_vector j;
     z_vector := z_vector j;
     x_rotation := x_rotation j;
     y_rotation := y_rotation j;
     z_rotation := z_rotation j;
     graphic_obj := g;
     visible := visible j;
     joint_length := joint_length j;
     graphic_ref := graphic_ref j |}.

(** [draw_reference_frame] *)
Definition draw_reference_frame (j : DefaultJoint) (is_visible : bool)
  : DefaultJoint :=
  if negb is_visible then
    match graphic_ref j with
    | Some _ =>
        with_graphic_ref j
          (Some {| frame_pos := connect_to j;
                   frame_axis := x_vector j;
                   frame_up := y_vector j;
                   frame_visible := false |})
    | None => j
    end
  else
    match graphic_ref j with
    | None =>
        with_graphic_ref j
          (Some (draw_reference_frame_axes (connect_to j) (x_vector j)
                                           (x_rotation j)))
    | Some f =>
        with_graphic_ref j
          (Some {| frame_pos := connect_to j;
                   frame_axis := x_vector j;
                   frame_up := y_vector j;
                   frame_visible := frame_visible f |})
    end.

(** [__draw_graphic] *)
Definition draw_graphic (j : DefaultJoint) : DefaultJoint :=
  let g := graphic_obj j in
  with_graphic_obj j
    {| obj_pos := connect_from j;
       obj_axis := x_vector j;
       obj_up := y_vector j;
       obj_length := obj_length g;
       obj_width := obj_width g;
       obj_height := obj_height g;
       obj_visible := obj_visible g |}.

(** The two closing steps shared by [update_position] and
    [update_orientation]: redraw the indicator if there is one, then the
    object itself. *)
Definition redraw (j : DefaultJoint) : DefaultJoint :=
  draw_graphic
    match graphic_ref j with
    | Some f => draw_reference_frame j (frame_visible f)
    | None => j
    end.

(** [update_position] *)
Definition update_position (j : DefaultJoint) (new_pos : vector)
  : DefaultJoint :=
  let axes_movement := (new_pos -v connect_from j)%vec in
  redraw
    {| connect_from := (connect_from j +v axes_movement)%vec;
       connect_to := (connect_to j +v axes_movement)%vec;
       connect_dir :=
         {| arrow_pos := (arrow_pos (connect_dir j) +v axes_movement)%vec;
            arrow_axis := arrow_axis (connect_dir j);
            arrow_visible := arrow_visible (connect_dir j) |};
       x_vector := x_vector j;
       y_vector := y_vector j;
       z_vector := z_vector j;
       x_rotation := x_rotation j;
       y_rotation := y_rotation j;
       z_rotation := z_rotation j;
       graphic_obj := graphic_obj j;
       visible := visible j;
       joint_length := joint_length j;
       graphic_ref := graphic_ref j |}.

(** The three accumulated angles, written together. *)
Definition with_rotations (j : DefaultJoint) (rx ry rz : R) : DefaultJoint :=
  {| connect_from := connect_from j;
     connect_to := connect_to j;
     connect_dir := connect_dir j;
     x_vector := x_vector j;
     y_vector := y_vector j;
     z_vector := z_vector j;
     x_rotation := rx;
     y_rotation := ry;
     z_rotation := rz;
     graphic_obj := graphic_obj j;
     visible := visible j;
     joint_length := joint_length j;
     graphic_ref := graphic_ref j |}.

(** The branch of [update_orientation] on the axis argument: the local axis
    to turn about, and the joint with the matching angle accumulated. *)
Definition select_axis (j : DefaultJoint) (angle_of_rotation : R)
                       (axis_of_rotation : vector) : vector * DefaultJoint :=
  if equals axis_of_rotation (mkvec 1 0 0) then
    (x_vector j,
     with_rotations j (wrap_to_pi (x_rotation j + angle_of_rotation))
                    (y_rotation j) (z_rotation j))
  else if equals axis_of_rotation (mkvec 0 1 0) then
    (y_vector j,
     with_rotations j (x_rotation j)
                    (wrap_to_pi (y_rotation j + angle_of_rotation))
                    (z_rotation j))
  else if equals axis_of_rotation (mkvec 0 0 1) then
    (z_vector j,
     with_rotations j (x_rotation j) (y_rotation j)
                    (wrap_to_pi (z_rotation j + angle_of_rotation)))
  else
    (y_vector j,
     with_rotations j (x_rotation j)
                    (wrap_to_pi (y_rotation j + angle_of_rotation))
                    (z_rotation j)).

(** The new tool point: the tracking arrow is turned, and the tip is read
    off as its position plus its axis. *)
Definition turn_direction (j : DefaultJoint) (angle_of_rotation : R)
                          (rotation_axis : vector) : DefaultJoint :=
  let dir := arrow_rotate (connect_dir j) angle_of_rotation rotation_axis in
  {| connect_from := connect_from j;
     connect_to := (arrow_pos dir +v arrow_axis dir)%vec;
     connect_dir := dir;
     x_vector := x_vector j;
     y_vector := y_vector j;
     z_vector := z_vector j;
     x_rotation := x_rotation j;
     y_rotation := y_rotation j;
     z_rotation := z_rotation j;
     graphic_obj := graphic_obj j;
     visible := visible j;
     joint_length := joint_length j;
     graphic_ref := graphic_ref j |}.

(** [update_orientation].  [rotation_axis] is one of the joint's own axis
    vectors as it stands when the call starts. *)
Definition update_orientation (j : DefaultJoint) (angle_of_rotation : R)
                              (axis_of_rotation : vector) : DefaultJoint :=
  let '(rotation_axis, j1) :=
    select_axis j angle_of_rotation axis_of_rotation in
  let j2 :=
    with_graphic_obj j1
      (obj_rotate (graphic_obj j1) angle_of_rotation rotation_axis
                  (connect_from j1)) in
  let j3 := update_reference_frame j2 in
  let j4 := turn_direction j3 angle_of_rotation rotation_axis in
  redraw j4.

(** [set_joint_visibility]: the indicator's flag is written without a test
    for [None]. *)
Definition set_joint_visibility (j : DefaultJoint) (is_visible : bool)
  : result DefaultJoint :=
  if negb (eqb is_visible (visible j)) then
    let g := graphic_obj j in
    match graphic_ref j with
    | None => Raise AttributeError
    | Some f =>
        Ok {| connect_from := connect_from j;
              connect_to := connect_to j;
              connect_dir := connect_dir j;
              x_vector := x_vector j;
              y_vector := y_vector j;
              z_vector := z_vector j;
              x_rotation := x_rotation j;
              y_rotation := y_rotation j;
              z_rotation := z_rotation j;
              graphic_obj :=
                {| obj_pos := obj_pos g;
                   obj_axis := obj_axis g;
                   obj_up := obj_up g;
                   obj_length := obj_length g;
                   obj_width := obj_width g;
                   obj_height := obj_height g;
                   obj_visible := is_visible |};
              visible := is_visible;
              joint_length := joint_length j;
              graphic_ref :=
                Some {| frame_pos := frame_pos f;
                        frame_axis := frame_axis f;
                        frame_up := frame_up f;
                        frame_visible := is_visible |} |}
    end
  else Ok j.

Definition get_connection_to_pos (j : DefaultJoint) : vector := connect_to j.

(** [get_rotation_angle] *)
Definition get_rotation_angle (j : DefaultJoint) (axis : vector) : R :=
  if equals axis (mkvec 1 0 0) then x_rotation j
  else if equals axis (mkvec 0 1 0) then y_rotation j
  else if equals axis (mkvec 0 0 1) then z_rotation j
  else y_rotation j.

(** ** The joint classes *)

Inductive Joint : Type :=
| Default (base : DefaultJoint)
| RotationalJoint (base : DefaultJoint) (rotation_axis : vector)
| PrismaticJoint (base : DefaultJoint)
                 (min_translation max_translation : option R)
| StaticJoint (base : DefaultJoint)
| Gripper (base : DefaultJoint).

Definition base_of (j : Joint) : DefaultJoint :=
  match j with
  | Default b | RotationalJoint b _ | PrismaticJoint b _ _
  | StaticJoint b | Gripper b => b
  end.

Definition with_base (j : Joint) (b : DefaultJoint) : Joint :=
  match j with
  | Default _ => Default b
  | RotationalJoint _ ax => RotationalJoint b ax
  | PrismaticJoint _ lo hi => PrismaticJoint b lo hi
  | StaticJoint _ => StaticJoint b
  | Gripper _ => Gripper b
  end.

Definition RotationalJoint_init (connection_from_prev_seg
                                 connection_to_next_seg x_axis
                                 rotation_axis : vector)
                                (graphic_obj : option graphic) : Joint :=
  RotationalJoint
    (DefaultJoint_init connection_from_prev_seg connection_to_next_seg
                       x_axis graphic_obj)
    rotation_axis.

Definition PrismaticJoint_init (connection_from_prev_seg
                                connection_to_next_seg x_axis : vector)
                               (graphic_obj : option graphic) : Joint :=
  PrismaticJoint
    (DefaultJoint_init connection_from_prev_seg connection_to_next_seg
                       x_axis graphic_obj)
    None None.

Definition StaticJoint_init (connection_from_prev_seg
                             connection_to_next_seg x_axis : vector)
                            (graphic_obj : option graphic) : Joint :=
  StaticJoint
    (DefaultJoint_init connection_from_prev_seg connection_to_next_seg
                       x_axis graphic_obj).

Definition Gripper_init (connection_from_prev_seg
                         connection_to_next_seg x_axis : vector)
                        (graphic_obj : option graphic) : Joint :=
  Gripper
    (DefaultJoint_init connection_from_prev_seg connection_to_next_seg
                       x_axis graphic_obj).

(** The amount [RotationalJoint.rotate_joint] turns the link by. *)
Definition angle_diff (b : DefaultJoint) (rotation_axis : vector)
                      (new_angle : R) : R :=
  let new_angle := wrap_to_pi new_angle in
  let current_angle := get_rotation_angle b rotation_axis in
  wrap_to_pi (new_angle - current_angle).

(** [rotate_joint], by class.  The base class has no such method. *)
Definition rotate_joint (j : Joint) (new_angle : R) : result Joint :=
  match j with
  | RotationalJoint b rotation_axis =>
      Ok (RotationalJoint
            (update_orientation b (angle_diff b rotation_axis new_angle)
                                rotation_axis)
            rotation_axis)
  | PrismaticJoint _ _ _ => Ok j
  | StaticJoint _ => Ok j
  | Gripper _ => Ok j
  | Default _ => Raise AttributeError
  end.

(** ** Robot *)

(** Joints are objects: a robot holds references, and the store maps each
    reference to the state of the joint it names. *)
Definition store : Type := nat -> Joint.

Definition upd (h : store) (r : nat) (j : Joint) : store :=
  fun k => if Nat.eqb k r then j else h k.

Record Robot : Type := mkrobot {
  joints : list nat;
  num_joints : nat;
  is_shown : bool
}.

(** [joint.update_position(new_pos)] and [joint.update_orientation(angle,
    axis)] on the joint a reference names. *)
Definition call_update_position (h : store) (joint : nat) (new_pos : vector)
  : store :=
  upd h joint
    (with_base (h joint) (update_position (base_of (h joint)) new_pos)).

Definition call_update_orientation (h : store) (joint : nat) (angle : R)
                                   (axis : vector) : store :=
  upd h joint
    (with_base (h joint) (update_orientation (base_of (h joint)) angle axis)).

(** One turn of the loop of [__position_joints]. *)
Definition position_joint (r : Robot) (h : store) (joint_num : nat)
  : result store :=
  match nth_error (joints r) joint_num,
        nth_error (joints r) (joint_num - 1) with
  | Some cur, Some prev =>
      Ok (call_update_position h cur
            (get_connection_to_pos (base_of (h prev))))
  | _, _ => Raise IndexError
  end.

Fixpoint for_each {A S : Type} (body : S -> A -> result S) (l : list A)
                  (s : S) : result S :=
  match l with
  | [] => Ok s
  | a :: l' => s' <- body s a ;; for_each body l' s'
  end.

(** [__position_joints] *)
Definition position_joints (r : Robot) (h : store) : result store :=
  for_each (position_joint r) (seq 1 (num_joints r - 1)) h.

(** [Robot.__init__] *)
Definition Robot_init (js : list nat) (h : store) : result (Robot * store) :=
  let r := {| joints := js; num_joints := length js; is_shown := true |} in
  h' <- position_joints r h ;; Ok (r, h').

(** One turn of the loop of [set_robot_visibility]. *)
Definition show_joint (is_visible : bool) (s : Robot * store) (joint : nat)
  : result (Robot * store) :=
  let '(r, h) := s in
  b <- set_joint_visibility (base_of (h joint)) is_visible ;;
  Ok ({| joints := joints r;
         num_joints := num_joints r;
         is_shown := is_visible |},
      upd h joint (with_base (h joint) b)).

(** [set_robot_visibility] *)
Definition set_robot_visibility (r : Robot) (h : store) (is_visible : bool)
  : result (Robot * store) :=
  if negb (eqb is_visible (is_shown r)) then
    for_each (show_joint is_visible) (joints r) (r, h)
  else Ok (r, h).

(** [set_reference_visibility] *)
Definition set_reference_visibility (r : Robot) (h : store)
                                    (is_visible : bool) : store :=
  fold_left
    (fun h joint =>
       upd h joint
         (with_base (h joint)
            (draw_reference_frame (base_of (h joint)) is_visible)))
    (joints r) h.

(** ** Properties of states *)

(** The chain is glued end to end. *)
Definition contiguous (r : Robot) (h : store) : Prop :=
  forall i cur prev,
    (0 < i)%nat ->
    nth_error (joints r) i = Some cur ->
    nth_error (joints r) (i - 1) = Some prev ->
    connect_from (base_of (h cur)) = connect_to (base_of (h prev)).

(** The three accumulated angles are wrapped. *)
Definition rotations_wrapped (j : DefaultJoint) : Prop :=
  in_range (x_rotation j) /\ in_range (y_rotation j) /\
  in_range (z_rotation j).

(** The local frame is orthogonal and scaled to the joint's length. *)
Definition frame_orthogonal (j : DefaultJoint) : Prop :=
  dot (x_vector j) (y_vector j) = 0 /\
  dot (y_vector j) (z_vector j) = 0 /\
  dot (x_vector j) (z_vector j) = 0 /\
  mag (x_vector j) = joint_length j /\
  mag (y_vector j) = joint_length j /\
  mag (z_vector j) = joint_length j.

(** A display object has a proper pose when its axis and up vectors are
    perpendicular and not null and its bounding box is not negative.  The
    placeholder has one; for an object handed to the constructor it is what
    the joint relies on, since the constructor checks nothing. *)
Definition proper_pose (g : graphic) : Prop :=
  dot (obj_axis g) (obj_up g) = 0 /\
  obj_axis g <> mkvec 0 0 0 /\
  obj_up g <> mkvec 0 0 0 /\
  0 <= Rmax (Rmax (obj_length g) (obj_width g)) (obj_height g).

(** What the operations keep true of a joint: its frame is orthogonal and
    scaled, the display object's axis and up vectors are the joint's x and y
    vectors, and the length is not negative. *)
Definition posed (j : DefaultJoint) : Prop :=
  frame_orthogonal j /\
  obj_axis (graphic_obj j) = x_vector j /\
  obj_up (graphic_obj j) = y_vector j /\
  0 <= joint_length j.

(** The states a joint can be in: built by the constructor, on the
    placeholder or on a display object accepted by [P], and then moved by
    any sequence of the public operations. *)
Inductive reachable (P : graphic -> Prop) : DefaultJoint -> Prop :=
| reach_init from to axis given_obj :
    (forall g, given_obj = Some g -> P g) ->
    reachable P (DefaultJoint_init from to axis given_obj)
| reach_position j new_pos :
    reachable P j -> reachable P (update_position j new_pos)
| reach_orientation j angle axis :
    reachable P j -> reachable P (update_orientation j angle axis)
| reach_reference j is_visible :
    reachable P j -> reachable P (draw_reference_frame j is_visible)
| reach_visibility j is_visible j' :
    reachable P j -> set_joint_visibility j is_visible = Ok j' ->
    reachable P j'.

(** ** Further operations and state properties *)

(** [PrismaticJoint.translate_joint]: a method of the prismatic class only,
    and its body is [pass]. *)
Definition translate_joint (j : Joint) (new_translation : R) : result Joint :=
  match j with
  | PrismaticJoint _ _ _ => Ok j
  | _ => Raise AttributeError
  end.

(** Two states of a joint with the same origin, tip, axes, angles and
    length. *)
Definition same_geometry (j j' : DefaultJoint) : Prop :=
  connect_from j' = connect_from j /\
  connect_to j' = connect_to j /\
  x_vector j' = x_vector j /\
  y_vector j' = y_vector j /\
  z_vector j' = z_vector j /\
  x_rotation j' = x_rotation j /\
  y_rotation j' = y_rotation j /\
  z_rotation j' = z_rotation j /\
  joint_length j' = joint_length j.

(** The vector from a joint's origin to its tip. *)
Definition span (j : DefaultJoint) : vector :=
  (connect_to j -v connect_from j)%vec.

(** Two states of a joint with the same span, axes, angles and length:
    the second is the first moved without turning. *)
Definition same_shape (j j' : DefaultJoint) : Prop :=
  span j' = span j /\
  x_vector j' = x_vector j /\
  y_vector j' = y_vector j /\
  z_vector j' = z_vector j /\
  x_rotation j' = x_rotation j /\
  y_rotation j' = y_rotation j /\
  z_rotation j' = z_rotation j /\
  joint_length j' = joint_length j.

(** Two joints of the same class, with the same class attributes. *)
Definition same_class (j j' : Joint) : Prop := with_base j (base_of j') = j'.

(** The tracking arrow starts at the origin and ends at the tip. *)
Definition tracked (j : DefaultJoint) : Prop :=
  arrow_pos (connect_dir j) = connect_from j /\
  connect_to j = (arrow_pos (connect_dir j) +v arrow_axis (connect_dir j))%vec.

(** The z vector is the one [__update_reference_frame] derives from the
    current x and y vectors. *)
Definition framed (j : DefaultJoint) : Prop :=
  z_vector j
  = set_mag (cross (x_vector j) (y_vector j)) (joint_length j).

(** The indicator of a joint, as the pose and flag the redraw gives it. *)
Definition indicator_at_tip (j : DefaultJoint) (shown : bool) : frame :=
  {| frame_pos := connect_to j;
     frame_axis := x_vector j;
     frame_up := y_vector j;
     frame_visible := shown |}.

(** What [draw_reference_frame] with flag [v] has made of a joint [j0]:
    the same joint, with its indicator (if it had one) at the tip, hidden
    when [v] is false and with its old flag when [v] is true. *)
Definition indicator_redrawn (v : bool) (j0 j' : Joint) : Prop :=
  same_geometry (base_of j0) (base_of j') /\
  same_class j0 j' /\
  forall f,
    graphic_ref (base_of j0) = Some f ->
    graphic_ref (base_of j')
    = Some (indicator_at_tip (base_of j0)
                             (if v then frame_visible f else false)).

(** The origins a chain of spans lays out, starting from [start]. *)
Fixpoint sum_spans (h : store) (l : list nat) (start : vector) : vector :=
  match l with
  | [] => start
  | k :: l' => sum_spans h l' (start +v span (base_of (h k)))%vec
  end.

(** ** Angle lemmas *)

Lemma two_PI_pos : 0 < 2 * PI.
Proof. pose proof PI_RGT_0; lra. Qed.

Lemma remainder_bounds (a : R) :
  0 <= a - 2 * PI * IZR (Int_part (a / (2 * PI))) < 2 * PI.
Proof.
  pose proof two_PI_pos as Hp.
  destruct (base_Int_part (a / (2 * PI))) as [Hlo Hhi].
  set (k := IZR (Int_part (a / (2 * PI)))) in *.
  assert (Ha : a = a / (2 * PI) * (2 * PI)) by (field; lra).
  set (q := a / (2 * PI)) in *.
  split; nra.
Qed.

Lemma wrap_to_pi_in_range (a : R) : in_range (wrap_to_pi a).
Proof.
  unfold in_range, wrap_to_pi.
  pose proof (remainder_bounds a) as [Hlo Hhi].
  pose proof PI_RGT_0.
  cbv zeta. destruct (Rlt_dec PI _); lra.
Qed.

Lemma wrap_to_pi_turns (a : R) :
  exists k : Z, wrap_to_pi a = a + 2 * PI * IZR k.
Proof.
  unfold wrap_to_pi. cbv zeta.
  destruct (Rlt_dec PI _).
  - exists (- Int_part (a / (2 * PI)) - 1)%Z.
    rewrite minus_IZR, opp_IZR. lra.
  - exists (- Int_part (a / (2 * PI)))%Z.
    rewrite opp_IZR. lra.
Qed.

(** Two angles of (−π, π] that differ by whole turns are equal. *)
Lemma in_range_unique (b c : R) (k : Z) :
  in_range b -> in_range c -> b = c + 2 * PI * IZR k -> b = c.
Proof.
  unfold in_range. intros Hb Hc E.
  pose proof PI_RGT_0 as Hp.
  assert (Hk : (-1 < k < 1)%Z).
  { split; apply lt_IZR; simpl; nra. }
  assert (k = 0%Z) by lia. subst k. simpl in E. lra.
Qed.

Lemma wrap_to_pi_unique (a b : R) (k : Z) :
  in_range b -> b = a + 2 * PI * IZR k -> wrap_to_pi a = b.
Proof.
  intros Hb E.
  destruct (wrap_to_pi_turns a) as [m Hm].
  apply (in_range_unique _ _ (m - k)).
  - apply wrap_to_pi_in_range.
  - exact Hb.
  - rewrite minus_IZR. lra.
Qed.

Lemma wrap_to_pi_id (a : R) : in_range a -> wrap_to_pi a = a.
Proof.
  intros Ha. apply (wrap_to_pi_unique a a 0); [exact Ha | simpl; lra].
Qed.

Lemma in_range_0 : in_range 0.
Proof. unfold in_range. pose proof PI_RGT_0. lra. Qed.

Lemma radians_0 : radians 0 = 0.
Proof. unfold radians. lra. Qed.

(** C9: the wrap is defined on every real, lands in (−π, π], and wrapping a
    wrapped angle changes nothing. *)
Theorem wrap_to_pi_total_idempotent (a : R) :
  in_range (wrap_to_pi a) /\ wrap_to_pi (wrap_to_pi a) = wrap_to_pi a.
Proof.
  split.
  - apply wrap_to_pi_in_range.
  - apply wrap_to_pi_id, wrap_to_pi_in_range.
Qed.

(** ** Vector lemmas *)

Lemma vec_eq (a b : vector) :
  vx a = vx b -> vy a = vy b -> vz a = vz b -> a = b.
Proof. destruct a, b; simpl; intros; subst; reflexivity. Qed.

Lemma Reqb_true_iff (a b : R) : Reqb a b = true <-> a = b.
Proof.
  unfold Reqb. destruct (Req_dec_T a b); split; congruence.
Qed.

Lemma equals_true_iff (a b : vector) : equals a b = true <-> a = b.
Proof.
  unfold equals. rewrite !andb_true_iff, !Reqb_true_iff. split.
  - intros [[Hx Hy] Hz]. apply vec_eq; assumption.
  - intros ->. auto.
Qed.

Lemma equals_false (a b : vector) : a <> b -> equals a b = false.
Proof.
  intros H. destruct (equals a b) eqn:E; [|reflexivity].
  apply equals_true_iff in E. contradiction.
Qed.

Lemma equals_refl (a : vector) : equals a a = true.
Proof. apply equals_true_iff. reflexivity. Qed.

Lemma vadd_vsub_cancel (a b : vector) : (a +v (b -v a))%vec = b.
Proof. apply vec_eq; simpl; lra. Qed.

Lemma vsub_translate (a b m : vector) :
  ((a +v m) -v (b +v m))%vec = (a -v b)%vec.
Proof. apply vec_eq; simpl; lra. Qed.

(** ** What the redraw steps leave alone *)

Ltac redraw_cases j :=
  unfold redraw, draw_graphic, draw_reference_frame;
  simpl;
  destruct (graphic_ref j) as [[? ? ? []]|]; reflexivity.

Lemma redraw_geometry (j : DefaultJoint) :
  connect_from (redraw j) = connect_from j /\
  connect_to (redraw j) = connect_to j /\
  connect_dir (redraw j) = connect_dir j /\
  joint_length (redraw j) = joint_length j /\
  visible (redraw j) = visible j.
Proof. repeat split; redraw_cases j. Qed.

Lemma redraw_frame (j : DefaultJoint) :
  x_vector (redraw j) = x_vector j /\
  y_vector (redraw j) = y_vector j /\
  z_vector (redraw j) = z_vector j.
Proof. repeat split; redraw_cases j. Qed.

Lemma redraw_rotations (j : DefaultJoint) :
  x_rotation (redraw j) = x_rotation j /\
  y_rotation (redraw j) = y_rotation j /\
  z_rotation (redraw j) = z_rotation j.
Proof. repeat split; redraw_cases j. Qed.

Lemma redraw_graphic_pose (j : DefaultJoint) :
  obj_axis (graphic_obj (redraw j)) = x_vector j /\
  obj_up (graphic_obj (redraw j)) = y_vector j.
Proof. split; redraw_cases j. Qed.

(** ** Moving a joint *)

Lemma update_position_connect_from (j : DefaultJoint) (p : vector) :
  connect_from (update_position j p) = p.
Proof.
  unfold update_position.
  destruct (redraw_geometry
    {| connect_from := (connect_from j +v (p -v connect_from j))%vec;
       connect_to := (connect_to j +v (p -v connect_from j))%vec;
       connect_dir :=
         {| arrow_pos :=
              (arrow_pos (connect_dir j) +v (p -v connect_from j))%vec;
            arrow_axis := arrow_axis (connect_dir j);
            arrow_visible := arrow_visible (connect_dir j) |};
       x_vector := x_vector j; y_vector := y_vector j;
       z_vector := z_vector j; x_rotation := x_rotation j;
       y_rotation := y_rotation j; z_rotation := z_rotation j;
       graphic_obj := graphic_obj j; visible := visible j;
       joint_length := joint_length j; graphic_ref := graphic_ref j |})
    as (E & _).
  cbv zeta. rewrite E. simpl. apply vadd_vsub_cancel.
Qed.

Lemma update_position_connect_to (j : DefaultJoint) (p : vector) :
  connect_to (update_position j p)
  = (connect_to j +v (p -v connect_from j))%vec.
Proof.
  unfold update_position. cbv zeta.
  match goal with |- connect_to (redraw ?r) = _ =>
    destruct (redraw_geometry r) as (_ & E & _); rewrite E end.
  reflexivity.
Qed.

Lemma update_position_connect_dir (j : DefaultJoint) (p : vector) :
  connect_dir (update_position j p)
  = {| arrow_pos := (arrow_pos (connect_dir j) +v (p -v connect_from j))%vec;
       arrow_axis := arrow_axis (connect_dir j);
       arrow_visible := arrow_visible (connect_dir j) |}.
Proof.
  unfold update_position. cbv zeta.
  match goal with |- connect_dir (redraw ?r) = _ =>
    destruct (redraw_geometry r) as (_ & _ & E & _); rewrite E end.
  reflexivity.
Qed.

Lemma update_position_frame (j : DefaultJoint) (p : vector) :
  x_vector (update_position j p) = x_vector j /\
  y_vector (update_position j p) = y_vector j /\
  z_vector (update_position j p) = z_vector j /\
  joint_length (update_position j p) = joint_length j.
Proof.
  unfold update_position. cbv zeta.
  match goal with |- x_vector (redraw ?r) = _ /\ _ =>
    destruct (redraw_frame r) as (Ex & Ey & Ez);
    destruct (redraw_geometry r) as (_ & _ & _ & El & _);
    rewrite Ex, Ey, Ez, El end.
  repeat split.
Qed.

Lemma update_position_rotations (j : DefaultJoint) (p : vector) :
  x_rotation (update_position j p) = x_rotation j /\
  y_rotation (update_position j p) = y_rotation j /\
  z_rotation (update_position j p) = z_rotation j.
Proof.
  unfold update_position. cbv zeta.
  match goal with |- x_rotation (redraw ?r) = _ /\ _ =>
    destruct (redraw_rotations r) as (Ex & Ey & Ez);
    rewrite Ex, Ey, Ez end.
  repeat split.
Qed.

(** C7: [update_position] puts the origin at the requested point, moves the
    tip and the tracking arrow by the same vector, and leaves the accumulated
    angles, the three axis vectors and the vector from origin to tip as they
    were. *)
Theorem update_position_is_translation (j : DefaultJoint) (p : vector) :
  let j' := update_position j p in
  let movement := (p -v connect_from j)%vec in
  connect_from j' = p /\
  connect_to j' = (connect_to j +v movement)%vec /\
  arrow_pos (connect_dir j') = (arrow_pos (connect_dir j) +v movement)%vec /\
  arrow_axis (connect_dir j') = arrow_axis (connect_dir j) /\
  x_rotation j' = x_rotation j /\
  y_rotation j' = y_rotation j /\
  z_rotation j' = z_rotation j /\
  x_vector j' = x_vector j /\
  y_vector j' = y_vector j /\
  z_vector j' = z_vector j /\
  (connect_to j' -v connect_from j')%vec
  = (connect_to j -v connect_from j)%vec.
Proof.
  cbv zeta.
  destruct (update_position_rotations j p) as (Rx & Ry & Rz).
  destruct (update_position_frame j p) as (Fx & Fy & Fz & _).
  rewrite update_position_connect_dir, update_position_connect_to.
  rewrite Rx, Ry, Rz, Fx, Fy, Fz.
  repeat split; try reflexivity.
  - apply update_position_connect_from.
  - rewrite update_position_connect_from.
    apply vec_eq; simpl; lra.
Qed.

(** ** Joints that do not turn *)

(** C8: on a static joint and on a gripper, [rotate_joint] returns normally
    for every angle and hands back the joint as it was. *)
Theorem rotate_joint_noop_variants (b : DefaultJoint) (new_angle : R) :
  rotate_joint (StaticJoint b) new_angle = Ok (StaticJoint b) /\
  rotate_joint (Gripper b) new_angle = Ok (Gripper b).
Proof. split; reflexivity. Qed.

(** ** Turning a joint: the accumulated angles *)

Lemma update_orientation_rotations (j : DefaultJoint) (a : R) (ax : vector) :
  x_rotation (update_orientation j a ax) = x_rotation (snd (select_axis j a ax))
  /\ y_rotation (update_orientation j a ax)
     = y_rotation (snd (select_axis j a ax))
  /\ z_rotation (update_orientation j a ax)
     = z_rotation (snd (select_axis j a ax)).
Proof.
  unfold update_orientation.
  destruct (select_axis j a ax) as [ra j1]. cbv zeta.
  match goal with |- x_rotation (redraw ?r) = _ /\ _ =>
    destruct (redraw_rotations r) as (Ex & Ey & Ez);
    rewrite Ex, Ey, Ez end.
  repeat split.
Qed.

Lemma update_orientation_connect_from (j : DefaultJoint) (a : R)
                                      (ax : vector) :
  connect_from (update_orientation j a ax) = connect_from j.
Proof.
  unfold update_orientation.
  assert (E : connect_from (snd (select_axis j a ax)) = connect_from j).
  { unfold select_axis.
    destruct (equals ax _); [reflexivity|].
    destruct (equals ax _); [reflexivity|].
    destruct (equals ax _); reflexivity. }
  destruct (select_axis j a ax) as [ra j1]. cbv zeta.
  match goal with |- connect_from (redraw ?r) = _ =>
    destruct (redraw_geometry r) as (E' & _); rewrite E' end.
  exact E.
Qed.

Lemma get_rotation_angle_update_orientation (j : DefaultJoint) (a : R)
                                            (ax : vector) :
  get_rotation_angle (update_orientation j a ax) ax
  = wrap_to_pi (get_rotation_angle j ax + a).
Proof.
  unfold get_rotation_angle.
  destruct (update_orientation_rotations j a ax) as (Ex & Ey & Ez).
  rewrite Ex, Ey, Ez. unfold select_axis.
  destruct (equals ax (mkvec 1 0 0)); [reflexivity|].
  destruct (equals ax (mkvec 0 1 0)); [reflexivity|].
  destruct (equals ax (mkvec 0 0 1)); reflexivity.
Qed.

Lemma select_axis_fallback (j : DefaultJoint) (a : R) (ax : vector) :
  ax <> mkvec 1 0 0 -> ax <> mkvec 0 1 0 -> ax <> mkvec 0 0 1 ->
  select_axis j a ax = select_axis j a (mkvec 0 1 0).
Proof.
  intros Hx Hy Hz. unfold select_axis.
  rewrite (equals_false ax _ Hx), (equals_false ax _ Hy),
          (equals_false ax _ Hz).
  rewrite (equals_false (mkvec 0 1 0) (mkvec 1 0 0)).
  - rewrite equals_refl. reflexivity.
  - intros E. apply (f_equal vx) in E. simpl in E. lra.
Qed.

Lemma wrap_to_pi_delta (current target : R) :
  in_range target ->
  wrap_to_pi (current + wrap_to_pi (target - current)) = target.
Proof.
  intros Ht.
  destruct (wrap_to_pi_turns (target - current)) as [m Hm].
  apply (wrap_to_pi_unique _ _ (- m)); [exact Ht|].
  rewrite Hm, opp_IZR. lra.
Qed.

(** C5: an axis argument that is none of (1,0,0), (0,1,0), (0,0,1) makes
    [update_orientation] do exactly what it does for (0,1,0), accumulating
    the angle on [y_rotation], and makes [get_rotation_angle] return
    [y_rotation]; neither call can raise. *)
Theorem invalid_axis_falls_back_to_y (j : DefaultJoint) (angle : R)
                                     (axis : vector) :
  axis <> mkvec 1 0 0 -> axis <> mkvec 0 1 0 -> axis <> mkvec 0 0 1 ->
  update_orientation j angle axis = update_orientation j angle (mkvec 0 1 0)
  /\ y_rotation (update_orientation j angle axis)
     = wrap_to_pi (y_rotation j + angle)
  /\ x_rotation (update_orientation j angle axis) = x_rotation j
  /\ z_rotation (update_orientation j angle axis) = z_rotation j
  /\ get_rotation_angle j axis = get_rotation_angle j (mkvec 0 1 0)
  /\ get_rotation_angle j axis = y_rotation j.
Proof.
  intros Hx Hy Hz.
  destruct (update_orientation_rotations j angle axis) as (Ex & Ey & Ez).
  rewrite Ex, Ey, Ez.
  unfold update_orientation.
  rewrite (select_axis_fallback j angle axis Hx Hy Hz).
  split; [reflexivity|].
  unfold select_axis, get_rotation_angle.
  rewrite (equals_false axis _ Hx), (equals_false axis _ Hy),
          (equals_false axis _ Hz).
  rewrite (equals_false (mkvec 0 1 0) (mkvec 1 0 0)), equals_refl.
  - repeat split.
  - intros E. apply (f_equal vx) in E. simpl in E. lra.
Qed.

(** C2: [rotate_joint] on a rotational joint returns normally and leaves
    the accumulated angle about the joint's rotation axis at the wrapped
    target, whatever it was before; asked for the same angle again, it turns
    the link by 0 and the angle still reads the wrapped target. *)
Theorem rotate_joint_sets_wrapped_angle (b : DefaultJoint)
                                        (rotation_axis : vector)
                                        (new_angle : R) :
  let b1 := update_orientation b (angle_diff b rotation_axis new_angle)
                               rotation_axis in
  let b2 := update_orientation b1 (angle_diff b1 rotation_axis new_angle)
                               rotation_axis in
  rotate_joint (RotationalJoint b rotation_axis) new_angle
  = Ok (RotationalJoint b1 rotation_axis)
  /\ get_rotation_angle b1 rotation_axis = wrap_to_pi new_angle
  /\ angle_diff b1 rotation_axis new_angle = 0
  /\ rotate_joint (RotationalJoint b1 rotation_axis) new_angle
     = Ok (RotationalJoint b2 rotation_axis)
  /\ get_rotation_angle b2 rotation_axis = wrap_to_pi new_angle.
Proof.
  cbv zeta.
  assert (E1 : get_rotation_angle
                 (update_orientation b
                    (angle_diff b rotation_axis new_angle) rotation_axis)
                 rotation_axis = wrap_to_pi new_angle).
  { rewrite get_rotation_angle_update_orientation. unfold angle_diff.
    apply wrap_to_pi_delta, wrap_to_pi_in_range. }
  assert (E2 : angle_diff
                 (update_orientation b
                    (angle_diff b rotation_axis new_angle) rotation_axis)
                 rotation_axis new_angle = 0).
  { unfold angle_diff at 1. rewrite E1.
    replace (wrap_to_pi new_angle - wrap_to_pi new_angle) with 0 by lra.
    apply wrap_to_pi_id, in_range_0. }
  repeat split; try assumption.
  rewrite get_rotation_angle_update_orientation, E1, E2.
  rewrite Rplus_0_r. apply wrap_to_pi_id, wrap_to_pi_in_range.
Qed.

(** ** The accumulated angles stay wrapped *)

Lemma select_axis_wrapped (j : DefaultJoint) (a : R) (ax : vector) :
  rotations_wrapped j -> rotations_wrapped (snd (select_axis j a ax)).
Proof.
  intros (Hx & Hy & Hz). unfold select_axis, rotations_wrapped.
  destruct (equals ax (mkvec 1 0 0));
    [simpl; auto using wrap_to_pi_in_range|].
  destruct (equals ax (mkvec 0 1 0));
    [simpl; auto using wrap_to_pi_in_range|].
  destruct (equals ax (mkvec 0 0 1));
    simpl; auto using wrap_to_pi_in_range.
Qed.

Lemma set_joint_visibility_rotations (j j' : DefaultJoint) (v : bool) :
  set_joint_visibility j v = Ok j' ->
  x_rotation j' = x_rotation j /\ y_rotation j' = y_rotation j /\
  z_rotation j' = z_rotation j.
Proof.
  unfold set_joint_visibility.
  destruct (negb (eqb v (visible j))).
  - destruct (graphic_ref j); [|discriminate].
    intros E. injection E as <-. repeat split.
  - intros E. injection E as <-. repeat split.
Qed.

Lemma draw_reference_frame_rotations (j : DefaultJoint) (v : bool) :
  x_rotation (draw_reference_frame j v) = x_rotation j /\
  y_rotation (draw_reference_frame j v) = y_rotation j /\
  z_rotation (draw_reference_frame j v) = z_rotation j.
Proof.
  unfold draw_reference_frame.
  destruct v; simpl; destruct (graphic_ref j); repeat split.
Qed.

Lemma rotate_joint_reachable (P : graphic -> Prop) (j j' : Joint)
                             (new_angle : R) :
  rotate_joint j new_angle = Ok j' ->
  reachable P (base_of j) -> reachable P (base_of j').
Proof.
  destruct j as [b | b ax | b lo hi | b | b]; simpl; intros E H;
    try discriminate E; injection E as <-; simpl;
    [apply reach_orientation|..]; exact H.
Qed.

Lemma reachable_rotations_wrapped (j : DefaultJoint) :
  reachable (fun _ => True) j -> rotations_wrapped j.
Proof.
  induction 1 as [from to axis given _ | j p _ IH | j a ax _ IH
                 | j v _ IH | j v j' _ IH E].
  - unfold rotations_wrapped. simpl. rewrite radians_0.
    repeat split; apply in_range_0.
  - destruct (update_position_rotations j p) as (Ex & Ey & Ez).
    unfold rotations_wrapped. rewrite Ex, Ey, Ez. exact IH.
  - destruct (update_orientation_rotations j a ax) as (Ex & Ey & Ez).
    unfold rotations_wrapped. rewrite Ex, Ey, Ez.
    apply select_axis_wrapped, IH.
  - destruct (draw_reference_frame_rotations j v) as (Ex & Ey & Ez).
    unfold rotations_wrapped. rewrite Ex, Ey, Ez. exact IH.
  - destruct (set_joint_visibility_rotations j j' v E) as (Ex & Ey & Ez).
    unfold rotations_wrapped. rewrite Ex, Ey, Ez. exact IH.
Qed.

(** C6: the three accumulated angles of a joint lie in (−π, π] when the
    constructor returns and after any sequence of [update_position],
    [update_orientation], [draw_reference_frame], [set_joint_visibility]
    and [rotate_joint] calls; the one write outside the constructor, in
    [update_orientation], stores the wrap of the old angle plus the turn. *)
Theorem rotations_always_wrapped (j : Joint) :
  reachable (fun _ => True) (base_of j) ->
  rotations_wrapped (base_of j) /\
  (forall new_angle j',
     rotate_joint j new_angle = Ok j' -> rotations_wrapped (base_of j')) /\
  (forall angle axis,
     get_rotation_angle (update_orientation (base_of j) angle axis) axis
     = wrap_to_pi (get_rotation_angle (base_of j) axis + angle)).
Proof.
  intros H. split; [|split].
  - apply reachable_rotations_wrapped, H.
  - intros new_angle j' E.
    apply reachable_rotations_wrapped.
    apply (rotate_joint_reachable _ j j' new_angle E H).
  - intros angle axis. apply get_rotation_angle_update_orientation.
Qed.

(** ** Visibility of an empty robot *)

(** C10: on a robot without joints, [set_robot_visibility] with a flag
    that differs from [is_shown] returns normally and leaves [is_shown] (and
    everything else) as it was: the flag is stored inside the loop over the
    joints. *)
Theorem empty_robot_visibility_unchanged (r : Robot) (h : store)
                                         (is_visible : bool) :
  joints r = [] -> is_visible <> is_shown r ->
  exists r' h', set_robot_visibility r h is_visible = Ok (r', h') /\
                is_shown r' = is_shown r /\ is_shown r' <> is_visible /\
                r' = r /\ h' = h.
Proof.
  intros Hj Hv. exists r, h.
  unfold set_robot_visibility. rewrite Hj. simpl.
  destruct (negb (eqb is_visible (is_shown r)));
    repeat split; auto.
Qed.

(** ** Gluing the chain *)

Lemma for_each_app {A S : Type} (body : S -> A -> result S)
                   (l1 l2 : list A) (s : S) :
  for_each body (l1 ++ l2) s
  = (s' <- for_each body l1 s ;; for_each body l2 s').
Proof.
  revert s. induction l1 as [|a l1 IH]; intros s; simpl.
  - reflexivity.
  - destruct (body s a) as [s'|e]; simpl; [apply IH | reflexivity].
Qed.

Lemma upd_same (h : store) (k : nat) (j : Joint) : upd h k j k = j.
Proof. unfold upd. rewrite Nat.eqb_refl. reflexivity. Qed.

Lemma upd_other (h : store) (k k' : nat) (j : Joint) :
  k' <> k -> upd h k j k' = h k'.
Proof.
  intros H. unfold upd. destruct (Nat.eqb_spec k' k); [contradiction|].
  reflexivity.
Qed.

Lemma base_of_with_base (j : Joint) (b : DefaultJoint) :
  base_of (with_base j b) = b.
Proof. destruct j; reflexivity. Qed.

Lemma call_update_position_same (h : store) (k : nat) (p : vector) :
  base_of (call_update_position h k p k) = update_position (base_of (h k)) p.
Proof.
  unfold call_update_position. rewrite upd_same. apply base_of_with_base.
Qed.

Lemma call_update_position_other (h : store) (k k' : nat) (p : vector) :
  k' <> k -> call_update_position h k p k' = h k'.
Proof. intros H. unfold call_update_position. apply upd_other, H. Qed.

Lemma call_update_orientation_same (h : store) (k : nat) (a : R)
                                   (ax : vector) :
  base_of (call_update_orientation h k a ax k)
  = update_orientation (base_of (h k)) a ax.
Proof.
  unfold call_update_orientation. rewrite upd_same. apply base_of_with_base.
Qed.

Lemma call_update_orientation_other (h : store) (k k' : nat) (a : R)
                                    (ax : vector) :
  k' <> k -> call_update_orientation h k a ax k' = h k'.
Proof. intros H. unfold call_update_orientation. apply upd_other, H. Qed.

Lemma DefaultJoint_init_connect_to (from to axis : vector)
                                   (given_obj : option graphic) :
  connect_to (DefaultJoint_init from to axis given_obj) = to.
Proof. reflexivity. Qed.

Lemma nth_error_distinct (js : list nat) (i i' a : nat) :
  NoDup js -> nth_error js i = Some a -> nth_error js i' = Some a -> i = i'.
Proof.
  intros Hnd Hi Hi'.
  apply (proj1 (NoDup_nth_error js) Hnd).
  - apply nth_error_Some. congruence.
  - congruence.
Qed.

(** After the first [m] turns of the loop the first [m + 1] joints are
    glued. *)
Lemma position_joints_prefix (r : Robot) (h : store) (m : nat) :
  NoDup (joints r) -> (m <= length (joints r) - 1)%nat ->
  exists h',
    for_each (position_joint r) (seq 1 m) h = Ok h' /\
    forall i cur prev,
      (0 < i <= m)%nat ->
      nth_error (joints r) i = Some cur ->
      nth_error (joints r) (i - 1) = Some prev ->
      connect_from (base_of (h' cur)) = connect_to (base_of (h' prev)).
Proof.
  intros Hnd. induction m as [|m IH]; intros Hm.
  - exists h. split; [reflexivity|]. intros i cur prev Hi. lia.
  - destruct IH as (h1 & Hrun & Hglued); [lia|].
    rewrite seq_S, for_each_app, Hrun. simpl.
    unfold position_joint.
    destruct (nth_error (joints r) (S m)) as [cur|] eqn:Ecur.
    2:{ apply nth_error_None in Ecur. lia. }
    replace (S m - 1)%nat with m by lia.
    destruct (nth_error (joints r) m) as [prev|] eqn:Eprev.
    2:{ apply nth_error_None in Eprev. lia. }
    eexists. split; [reflexivity|].
    intros i c p Hi Hc Hp.
    unfold call_update_position, get_connection_to_pos.
    destruct (Nat.eq_dec i (S m)) as [->|Hne].
    + replace (S m - 1)%nat with m in Hp by lia.
      assert (c = cur) by congruence. assert (p = prev) by congruence.
      subst c p.
      assert (prev <> cur).
      { intros ->.
        pose proof (nth_error_distinct _ _ _ _ Hnd Ecur Eprev). lia. }
      rewrite upd_same, upd_other by assumption.
      rewrite base_of_with_base. apply update_position_connect_from.
    + assert (c <> cur).
      { intros ->.
        pose proof (nth_error_distinct _ _ _ _ Hnd Ecur Hc). lia. }
      assert (p <> cur).
      { intros ->.
        pose proof (nth_error_distinct _ _ _ _ Hnd Ecur Hp). lia. }
      rewrite !upd_other by assumption.
      apply Hglued with (i := i); [lia | assumption | assumption].
Qed.

Lemma position_joints_contiguous (r : Robot) (h : store) :
  NoDup (joints r) -> num_joints r = length (joints r) ->
  exists h', position_joints r h = Ok h' /\ contiguous r h'.
Proof.
  intros Hnd Hn. unfold position_joints. rewrite Hn.
  destruct (position_joints_prefix r h (length (joints r) - 1) Hnd)
    as (h' & Hrun & Hglued); [lia|].
  exists h'. split; [exact Hrun|].
  intros i cur prev Hi Hc Hp.
  apply Hglued with (i := i); try assumption.
  assert (i < length (joints r))%nat by (apply nth_error_Some; congruence).
  lia.
Qed.

(** C1, as the code has it: building a robot from joints that are distinct
    objects returns normally with every joint's origin on the previous
    joint's tip, and so does a further propagation pass from any state of
    the joints.  (Nothing re-runs the pass when a single joint is moved or
    turned.) *)
Theorem chain_contiguous_after_propagation (js : list nat) (h : store) :
  NoDup js ->
  (exists r h', Robot_init js h = Ok (r, h') /\ joints r = js /\
                contiguous r h') /\
  (forall r h0, joints r = js -> num_joints r = length js ->
     exists h', position_joints r h0 = Ok h' /\ contiguous r h').
Proof.
  intros Hnd. split.
  - unfold Robot_init.
    destruct (position_joints_contiguous
                {| joints := js; num_joints := length js; is_shown := true |}
                h Hnd eq_refl) as (h' & Hrun & Hc).
    rewrite Hrun. simpl. eauto.
  - intros r h0 Hj Hn. apply position_joints_contiguous; congruence.
Qed.

(** ** Magnitudes, directions and rotations *)

Lemma dot_self_nonneg (a : vector) : 0 <= dot a a.
Proof. unfold dot. nra. Qed.

Lemma mag_nonneg (a : vector) : 0 <= mag a.
Proof. apply sqrt_pos. Qed.

Lemma mag_mag (a : vector) : mag a * mag a = dot a a.
Proof. apply sqrt_sqrt, dot_self_nonneg. Qed.

Lemma mag_null : mag (mkvec 0 0 0) = 0.
Proof.
  unfold mag, dot. simpl.
  replace (0 * 0 + 0 * 0 + 0 * 0) with 0 by lra. apply sqrt_0.
Qed.

Lemma mag_pos (a : vector) : a <> mkvec 0 0 0 -> 0 < mag a.
Proof.
  intros Ha. destruct (mag_nonneg a) as [H|H]; [exact H|].
  exfalso. apply Ha. symmetry in H.
  apply sqrt_eq_0 in H; [|apply dot_self_nonneg].
  unfold dot in H. apply vec_eq; simpl; nra.
Qed.

Lemma hat_of_nonnull (a : vector) : 0 < mag a -> hat a = vdiv a (mag a).
Proof. intros H. unfold hat. destruct (Rlt_dec 0 (mag a)); tauto. Qed.

Lemma dot_hat_hat (a : vector) : 0 < mag a -> dot (hat a) (hat a) = 1.
Proof.
  intros H. rewrite (hat_of_nonnull a H).
  pose proof (mag_mag a) as E.
  unfold dot, vdiv in *. simpl. field_simplify; [|lra].
  replace (mag a ^ 2) with (mag a * mag a) by ring.
  rewrite E. field. rewrite <- E. nra.
Qed.

Lemma set_mag_null (a : vector) : set_mag a 0 = mkvec 0 0 0.
Proof. unfold set_mag. apply vec_eq; simpl; lra. Qed.

Lemma mag_set_mag (a : vector) (L : R) :
  0 < mag a -> 0 <= L -> mag (set_mag a L) = L.
Proof.
  intros Ha HL. pose proof (dot_hat_hat a Ha) as E.
  unfold mag, set_mag.
  replace (dot (vscale L (hat a)) (vscale L (hat a))) with (L * L).
  - apply sqrt_square, HL.
  - unfold dot, vscale in *. simpl. nra.
Qed.

Lemma dot_hat_r (a b : vector) : dot a b = 0 -> dot a (hat b) = 0.
Proof.
  intros H. unfold hat. destruct (Rlt_dec 0 (mag b)) as [Hb|_].
  - unfold dot, vdiv in *. simpl.
    replace (vx a * (vx b / mag b) + vy a * (vy b / mag b)
             + vz a * (vz b / mag b))
      with ((vx a * vx b + vy a * vy b + vz a * vz b) / mag b)
      by (field; lra).
    rewrite H. field. lra.
  - unfold dot. simpl. lra.
Qed.

Lemma dot_comm (a b : vector) : dot a b = dot b a.
Proof. unfold dot. ring. Qed.

Lemma dot_set_mag_r (a b : vector) (L : R) :
  dot a b = 0 -> dot a (set_mag b L) = 0.
Proof.
  intros H. apply dot_hat_r in H. unfold set_mag.
  replace (dot a (vscale L (hat b))) with (L * dot a (hat b))
    by (unfold dot, vscale; simpl; ring).
  rewrite H. ring.
Qed.

Lemma dot_set_mag (a b : vector) (L : R) :
  dot a b = 0 -> dot (set_mag a L) (set_mag b L) = 0.
Proof.
  intros H. apply dot_set_mag_r. rewrite dot_comm.
  apply dot_set_mag_r. rewrite dot_comm. exact H.
Qed.

Lemma dot_cross_l (a b : vector) : dot a (cross a b) = 0.
Proof. unfold dot, cross. simpl. ring. Qed.

Lemma dot_cross_r (a b : vector) : dot b (cross a b) = 0.
Proof. unfold dot, cross. simpl. ring. Qed.

Lemma dot_cross_cross (a b : vector) :
  dot (cross a b) (cross a b) = dot a a * dot b b - dot a b * dot a b.
Proof. unfold dot, cross. simpl. ring. Qed.

Lemma mag_cross_pos (a b : vector) :
  0 < mag a -> 0 < mag b -> dot a b = 0 -> 0 < mag (cross a b).
Proof.
  intros Ha Hb H. unfold mag at 1. apply sqrt_lt_R0.
  rewrite dot_cross_cross, H, <- (mag_mag a), <- (mag_mag b).
  assert (0 < mag a * mag a) by (apply Rmult_lt_0_compat; assumption).
  assert (0 < mag b * mag b) by (apply Rmult_lt_0_compat; assumption).
  assert (0 < mag a * mag a * (mag b * mag b))
    by (apply Rmult_lt_0_compat; assumption).
  lra.
Qed.

(** The frame [__update_reference_frame] computes from an axis and an up
    direction that are perpendicular and not null. *)
Lemma reference_frame_orthogonal (a u : vector) (L : R) :
  0 <= L -> (0 < L -> dot a u = 0 /\ 0 < mag a /\ 0 < mag u) ->
  let x := set_mag a L in
  let y := set_mag u L in
  let z := set_mag (cross x y) L in
  dot x y = 0 /\ dot y z = 0 /\ dot x z = 0 /\
  mag x = L /\ mag y = L /\ mag z = L.
Proof.
  intros HL Hpose. cbv zeta. destruct HL as [Hpos | <-].
  - destruct (Hpose Hpos) as (Hd & Ha & Hu).
    assert (Hx : mag (set_mag a L) = L) by (apply mag_set_mag; lra).
    assert (Hy : mag (set_mag u L) = L) by (apply mag_set_mag; lra).
    assert (Hxy : dot (set_mag a L) (set_mag u L) = 0)
      by (apply dot_set_mag, Hd).
    repeat split; try assumption.
    + apply dot_set_mag_r, dot_cross_r.
    + apply dot_set_mag_r, dot_cross_l.
    + apply mag_set_mag; [|lra].
      apply mag_cross_pos; [rewrite Hx | rewrite Hy | ]; assumption.
  - rewrite !set_mag_null.
    unfold cross, dot. simpl. rewrite mag_null.
    repeat split; lra.
Qed.

(** A rotation about a direction that is not null keeps dot products. *)
Lemma rotate_dot (a b : vector) (angle : R) (axis : vector) :
  0 < mag axis ->
  dot (rotate a angle axis) (rotate b angle axis) = dot a b.
Proof.
  intros H. pose proof (dot_hat_hat axis H) as Hu.
  pose proof (sin2_cos2 angle) as Hsc. unfold Rsqr in Hsc.
  unfold rotate, dot in *. cbv zeta. simpl.
  set (x := vx (hat axis)) in *. set (y := vy (hat axis)) in *.
  set (z := vz (hat axis)) in *.
  set (c := cos angle) in *. set (s := sin angle) in *.
  nsatz.
Qed.

Lemma mag_rotate (a : vector) (angle : R) (axis : vector) :
  0 < mag axis -> mag (rotate a angle axis) = mag a.
Proof. intros H. unfold mag. rewrite rotate_dot by exact H. reflexivity. Qed.

(** ** Turning a joint: the frame and the tip *)

Lemma select_axis_is_local (j : DefaultJoint) (a : R) (ax : vector) :
  fst (select_axis j a ax) = x_vector j \/
  fst (select_axis j a ax) = y_vector j \/
  fst (select_axis j a ax) = z_vector j.
Proof.
  unfold select_axis.
  destruct (equals ax (mkvec 1 0 0)); [auto|].
  destruct (equals ax (mkvec 0 1 0)); [auto|].
  destruct (equals ax (mkvec 0 0 1)); auto.
Qed.

Lemma update_orientation_frame (j : DefaultJoint) (a : R) (ax : vector) :
  let j' := update_orientation j a ax in
  let rotation_axis := fst (select_axis j a ax) in
  let g := obj_rotate (graphic_obj j) a rotation_axis (connect_from j) in
  let dir := arrow_rotate (connect_dir j) a rotation_axis in
  let x := set_mag (obj_axis g) (joint_length j) in
  let y := set_mag (obj_up g) (joint_length j) in
  x_vector j' = x /\ y_vector j' = y /\
  z_vector j' = set_mag (cross x y) (joint_length j) /\
  joint_length j' = joint_length j /\
  obj_axis (graphic_obj j') = x /\ obj_up (graphic_obj j') = y /\
  connect_to j' = (arrow_pos dir +v arrow_axis dir)%vec.
Proof.
  unfold update_orientation, select_axis.
  destruct (equals ax (mkvec 1 0 0));
    [| destruct (equals ax (mkvec 0 1 0));
       [| destruct (equals ax (mkvec 0 0 1))]];
  cbv beta iota zeta delta [fst];
  match goal with |- context [redraw ?r] =>
    destruct (redraw_frame r) as (Ex & Ey & Ez);
    destruct (redraw_geometry r) as (_ & Et & _ & El & _);
    destruct (redraw_graphic_pose r) as (Ga & Gu);
    rewrite Ex, Ey, Ez, Et, El, Ga, Gu
  end;
  repeat split.
Qed.

(** ** The frame stays orthogonal *)

Lemma default_box_proper (span : R) : proper_pose (default_box span).
Proof.
  unfold proper_pose, default_box. simpl. repeat split.
  - unfold dot. simpl. lra.
  - intros E. apply (f_equal vx) in E. simpl in E. lra.
  - intros E. apply (f_equal vy) in E. simpl in E. lra.
  - apply Rle_trans with (1 / 10); [lra | apply Rmax_r].
Qed.

Lemma posed_after_init (from to axis : vector) (given_obj : option graphic) :
  (forall g, given_obj = Some g -> proper_pose g) ->
  posed (DefaultJoint_init from to axis given_obj).
Proof.
  intros Hg.
  assert (Hp : proper_pose (set_graphic from to given_obj)).
  { destruct given_obj as [g|]; simpl;
      [apply Hg; reflexivity | apply default_box_proper]. }
  destruct Hp as (Hd & Ha & Hu & HL).
  unfold posed, frame_orthogonal, DefaultJoint_init. simpl.
  split; [|auto].
  apply reference_frame_orthogonal; [exact HL|].
  intros _. auto using mag_pos.
Qed.

Lemma posed_after_update_position (j : DefaultJoint) (p : vector) :
  posed j -> posed (update_position j p).
Proof.
  intros (Ho & _ & _ & HL).
  destruct (update_position_frame j p) as (Ex & Ey & Ez & El).
  unfold posed, frame_orthogonal. rewrite Ex, Ey, Ez, El.
  split; [exact Ho|].
  unfold update_position. cbv zeta.
  match goal with |- context [redraw ?r] =>
    destruct (redraw_graphic_pose r) as (Ga & Gu); rewrite Ga, Gu end.
  simpl. auto.
Qed.

Lemma posed_after_update_orientation (j : DefaultJoint) (a : R)
                                     (ax : vector) :
  posed j -> posed (update_orientation j a ax).
Proof.
  intros ((Hxy & Hyz & Hxz & Hx & Hy & Hz) & Ga & Gu & HL).
  destruct (update_orientation_frame j a ax)
    as (Ex & Ey & Ez & El & Ea & Eu & _).
  unfold posed, frame_orthogonal. rewrite Ex, Ey, Ez, El, Ea, Eu.
  split; [|auto].
  apply reference_frame_orthogonal; [exact HL|].
  intros Hpos. unfold obj_rotate.
  destruct (Reqb a 0).
  - rewrite Ga, Gu, Hx, Hy. auto.
  - simpl. rewrite Ga, Gu.
    assert (Hra : 0 < mag (fst (select_axis j a ax))).
    { destruct (select_axis_is_local j a ax) as [-> | [-> | ->]]; lra. }
    rewrite rotate_dot, !mag_rotate by exact Hra.
    rewrite Hx, Hy. auto.
Qed.

Lemma posed_after_draw_reference_frame (j : DefaultJoint) (v : bool) :
  posed j -> posed (draw_reference_frame j v).
Proof.
  intros H. unfold draw_reference_frame.
  destruct v; simpl; destruct (graphic_ref j); exact H.
Qed.

Lemma posed_after_set_joint_visibility (j j' : DefaultJoint) (v : bool) :
  set_joint_visibility j v = Ok j' -> posed j -> posed j'.
Proof.
  unfold set_joint_visibility. intros E H.
  destruct (negb (eqb v (visible j))).
  - destruct (graphic_ref j); [|discriminate].
    injection E as <-. exact H.
  - injection E as <-. exact H.
Qed.

Lemma reachable_posed (j : DefaultJoint) :
  reachable proper_pose j -> posed j.
Proof.
  induction 1 as [from to axis given Hg | j p _ IH | j a ax _ IH
                 | j v _ IH | j v j' _ IH E].
  - apply posed_after_init, Hg.
  - apply posed_after_update_position, IH.
  - apply posed_after_update_orientation, IH.
  - apply posed_after_draw_reference_frame, IH.
  - apply (posed_after_set_joint_visibility j j' v E IH).
Qed.



(** ** A quarter turn of the unit segment *)

Lemma mag_of_unit (a : vector) : dot a a = 1 -> mag a = 1.
Proof. intros H. unfold mag. rewrite H. apply sqrt_1. Qed.

Lemma hat_of_unit (a : vector) : dot a a = 1 -> hat a = a.
Proof.
  intros H. pose proof (mag_of_unit a H) as Hm.
  rewrite hat_of_nonnull by lra. rewrite Hm.
  apply vec_eq; simpl; field.
Qed.

Lemma set_mag_of_unit (a : vector) : dot a a = 1 -> set_mag a 1 = a.
Proof.
  intros H. unfold set_mag. rewrite (hat_of_unit a H).
  apply vec_eq; simpl; ring.
Qed.

Lemma quarter_turn_not_null : Reqb (PI / 2) 0 = false.
Proof.
  unfold Reqb. destruct (Req_dec_T (PI / 2) 0) as [E|_]; [|reflexivity].
  pose proof PI_RGT_0. lra.
Qed.

Lemma rotate_quarter_about_y (v : vector) :
  rotate v (PI / 2) (mkvec 0 1 0) = mkvec (vz v) (vy v) (- vx v).
Proof.
  unfold rotate. rewrite hat_of_unit by (unfold dot; simpl; lra).
  cbv zeta. rewrite cos_PI2, sin_PI2.
  apply vec_eq; simpl; ring.
Qed.

Lemma unit_segment_length :
  Rmax (Rmax (mag (mkvec 1 0 0 -v mkvec 0 0 0)%vec) (1 / 10)) (1 / 10) = 1.
Proof.
  rewrite mag_of_unit by (unfold dot; simpl; lra).
  rewrite (Rmax_left 1 (1 / 10)) by lra.
  apply Rmax_left. lra.
Qed.

Lemma unit_segment_frame (axis : vector) :
  let A := DefaultJoint_init (mkvec 0 0 0) (mkvec 1 0 0) axis None in
  joint_length A = 1 /\ x_vector A = mkvec 1 0 0 /\
  y_vector A = mkvec 0 1 0.
Proof.
  cbv zeta. split; [apply unit_segment_length|].
  unfold DefaultJoint_init, update_reference_frame. cbv zeta.
  cbn [x_vector y_vector joint_length graphic_obj set_graphic default_box
       obj_axis obj_up obj_length obj_width obj_height].
  rewrite unit_segment_length.
  split; apply set_mag_of_unit; unfold dot; simpl; lra.
Qed.

Lemma unit_segment_turn_axis (axis : vector) (angle : R) :
  fst (select_axis (DefaultJoint_init (mkvec 0 0 0) (mkvec 1 0 0) axis None)
                   angle (mkvec 0 1 0))
  = mkvec 0 1 0.
Proof.
  unfold select_axis.
  rewrite (equals_false (mkvec 0 1 0) (mkvec 1 0 0)), equals_refl.
  - apply unit_segment_frame.
  - intros E. apply (f_equal vx) in E. simpl in E. lra.
Qed.

Lemma unit_segment_turned_tip (axis : vector) :
  connect_to
    (update_orientation
       (DefaultJoint_init (mkvec 0 0 0) (mkvec 1 0 0) axis None)
       (PI / 2) (mkvec 0 1 0))
  = mkvec 0 0 (-1).
Proof.
  destruct (update_orientation_frame
              (DefaultJoint_init (mkvec 0 0 0) (mkvec 1 0 0) axis None)
              (PI / 2) (mkvec 0 1 0)) as (_ & _ & _ & _ & _ & _ & Et).
  rewrite Et, unit_segment_turn_axis.
  unfold arrow_rotate. rewrite quarter_turn_not_null.
  cbn [arrow_pos arrow_axis]. rewrite !rotate_quarter_about_y.
  apply vec_eq; simpl; lra.
Qed.


(** ** What the redraw steps write *)

Lemma indicator_at_tip_redraw (j : DefaultJoint) (shown : bool) :
  indicator_at_tip (redraw j) shown = indicator_at_tip j shown.
Proof.
  unfold indicator_at_tip.
  destruct (redraw_geometry j) as (_ & Et & _).
  destruct (redraw_frame j) as (Ex & Ey & _).
  rewrite Et, Ex, Ey. reflexivity.
Qed.

Lemma redraw_indicator (j : DefaultJoint) (f : frame) :
  graphic_ref j = Some f ->
  graphic_ref (redraw j)
  = Some (indicator_at_tip (redraw j) (frame_visible f)).
Proof.
  intros H. rewrite indicator_at_tip_redraw.
  unfold redraw, draw_graphic, draw_reference_frame. rewrite H.
  destruct f as [fp fa fu []]; simpl; reflexivity.
Qed.

Lemma redraw_object (j : DefaultJoint) :
  obj_pos (graphic_obj (redraw j)) = connect_from j /\
  obj_visible (graphic_obj (redraw j)) = obj_visible (graphic_obj j) /\
  obj_length (graphic_obj (redraw j)) = obj_length (graphic_obj j) /\
  obj_width (graphic_obj (redraw j)) = obj_width (graphic_obj j) /\
  obj_height (graphic_obj (redraw j)) = obj_height (graphic_obj j).
Proof. repeat split; redraw_cases j. Qed.

Lemma update_position_indicator (j : DefaultJoint) (p : vector) (f : frame) :
  graphic_ref j = Some f ->
  graphic_ref (update_position j p)
  = Some (indicator_at_tip (update_position j p) (frame_visible f)).
Proof.
  intros H. unfold update_position. cbv zeta.
  apply redraw_indicator. exact H.
Qed.

Lemma update_position_object (j : DefaultJoint) (p : vector) :
  obj_pos (graphic_obj (update_position j p)) = p /\
  obj_axis (graphic_obj (update_position j p)) = x_vector j /\
  obj_up (graphic_obj (update_position j p)) = y_vector j /\
  obj_visible (graphic_obj (update_position j p))
  = obj_visible (graphic_obj j) /\
  visible (update_position j p) = visible j.
Proof.
  unfold update_position. cbv zeta.
  match goal with |- context [redraw ?r] =>
    destruct (redraw_object r) as (Ep & Ev & _);
    destruct (redraw_graphic_pose r) as (Ea & Eu);
    destruct (redraw_geometry r) as (_ & _ & _ & _ & Evis);
    rewrite Ep, Ev, Ea, Eu, Evis
  end.
  cbn [connect_from x_vector y_vector graphic_obj visible].
  repeat split. apply vadd_vsub_cancel.
Qed.

Lemma obj_rotate_visible (g : graphic) (a : R) (ax origin : vector) :
  obj_visible (obj_rotate g a ax origin) = obj_visible g.
Proof. unfold obj_rotate. destruct (Reqb a 0); reflexivity. Qed.

Lemma update_orientation_display (j : DefaultJoint) (a : R) (ax : vector) :
  let j' := update_orientation j a ax in
  (forall f, graphic_ref j = Some f ->
             graphic_ref j' = Some (indicator_at_tip j' (frame_visible f))) /\
  (graphic_ref j = None -> graphic_ref j' = None) /\
  obj_pos (graphic_obj j') = connect_from j' /\
  obj_visible (graphic_obj j') = obj_visible (graphic_obj j) /\
  visible j' = visible j.
Proof.
  unfold update_orientation, select_axis.
  destruct (equals ax (mkvec 1 0 0));
    [| destruct (equals ax (mkvec 0 1 0));
       [| destruct (equals ax (mkvec 0 0 1))]];
  cbv beta iota zeta delta [fst];
  match goal with |- context [redraw ?r] =>
    destruct (redraw_object r) as (Ep & Ev & _);
    destruct (redraw_geometry r) as (Ef & _ & _ & _ & Evis);
    rewrite Ep, Ev, Ef, Evis;
    (split; [intros f Hf; apply redraw_indicator; exact Hf|]);
    (split; [intros Hn; unfold redraw, draw_graphic;
             cbn [graphic_ref turn_direction update_reference_frame
                  with_graphic_obj with_rotations];
             rewrite Hn; cbn [graphic_ref with_graphic_obj]; exact Hn|])
  end;
  cbn [graphic_obj visible turn_direction update_reference_frame
       with_graphic_obj with_rotations obj_visible];
  rewrite obj_rotate_visible; repeat split.
Qed.

(** ** What every reachable joint satisfies *)

Lemma reachable_weaken (P : graphic -> Prop) (j : DefaultJoint) :
  reachable P j -> reachable (fun _ => True) j.
Proof.
  induction 1 as [from to axis given _ | j p _ IH | j a ax _ IH
                 | j v _ IH | j v j' _ IH E].
  - apply reach_init. intros g _. exact I.
  - apply reach_position, IH.
  - apply reach_orientation, IH.
  - apply reach_reference, IH.
  - apply (reach_visibility _ j v j' IH E).
Qed.

Lemma reachable_indicated (P : graphic -> Prop) (j : DefaultJoint) :
  reachable P j -> exists f, graphic_ref j = Some f.
Proof.
  induction 1 as [from to axis given _ | j p _ [f Hf] | j a ax _ [f Hf]
                 | j v _ [f Hf] | j v j' _ [f Hf] E].
  - eexists. reflexivity.
  - eexists. apply update_position_indicator, Hf.
  - eexists. apply update_orientation_display, Hf.
  - unfold draw_reference_frame. rewrite Hf.
    destruct v; simpl; eexists; reflexivity.
  - unfold set_joint_visibility in E. rewrite Hf in E.
    destruct (negb (eqb v (visible j))); injection E as <-.
    + eexists. reflexivity.
    + eexists. exact Hf.
Qed.

Lemma rotate_null (a : R) (ax : vector) :
  rotate (mkvec 0 0 0) a ax = mkvec 0 0 0.
Proof. unfold rotate. cbv zeta. apply vec_eq; simpl; ring. Qed.

Lemma vsub_self (a : vector) : (a -v a)%vec = mkvec 0 0 0.
Proof. apply vec_eq; simpl; ring. Qed.

Lemma vadd_null (a : vector) : (a +v mkvec 0 0 0)%vec = a.
Proof. apply vec_eq; simpl; ring. Qed.

Lemma arrow_rotate_pos (d : arrow) (a : R) (ax : vector) :
  arrow_pos (arrow_rotate d a ax) = arrow_pos d.
Proof.
  unfold arrow_rotate. destruct (Reqb a 0); [reflexivity|].
  cbn [arrow_pos]. rewrite vsub_self, rotate_null. apply vadd_null.
Qed.

Lemma tracked_after_init (from to axis : vector) (given : option graphic) :
  tracked (DefaultJoint_init from to axis given).
Proof.
  unfold tracked. simpl. split; [reflexivity|].
  symmetry. apply vadd_vsub_cancel.
Qed.

Lemma tracked_after_update_position (j : DefaultJoint) (p : vector) :
  tracked j -> tracked (update_position j p).
Proof.
  intros (Hp & Ht). unfold tracked.
  rewrite update_position_connect_dir, update_position_connect_to.
  rewrite update_position_connect_from. cbn [arrow_pos arrow_axis].
  split.
  - rewrite Hp. apply vadd_vsub_cancel.
  - rewrite Ht. apply vec_eq; simpl; ring.
Qed.

Lemma update_orientation_connect_dir (j : DefaultJoint) (a : R)
                                     (ax : vector) :
  connect_dir (update_orientation j a ax)
  = arrow_rotate (connect_dir j) a (fst (select_axis j a ax)).
Proof.
  unfold update_orientation, select_axis.
  destruct (equals ax (mkvec 1 0 0));
    [| destruct (equals ax (mkvec 0 1 0));
       [| destruct (equals ax (mkvec 0 0 1))]];
  cbv beta iota zeta delta [fst];
  match goal with |- context [redraw ?r] =>
    destruct (redraw_geometry r) as (_ & _ & Ed & _); rewrite Ed
  end; reflexivity.
Qed.

Lemma tracked_after_update_orientation (j : DefaultJoint) (a : R)
                                       (ax : vector) :
  tracked j -> tracked (update_orientation j a ax).
Proof.
  intros (Hp & Ht). unfold tracked.
  destruct (update_orientation_frame j a ax)
    as (_ & _ & _ & _ & _ & _ & Et).
  rewrite Et, update_orientation_connect_dir,
          update_orientation_connect_from, arrow_rotate_pos.
  split; [exact Hp | reflexivity].
Qed.

Lemma reachable_tracked (P : graphic -> Prop) (j : DefaultJoint) :
  reachable P j -> tracked j.
Proof.
  induction 1 as [from to axis given _ | j p _ IH | j a ax _ IH
                 | j v _ IH | j v j' _ IH E].
  - apply tracked_after_init.
  - apply tracked_after_update_position, IH.
  - apply tracked_after_update_orientation, IH.
  - unfold draw_reference_frame.
    destruct v; simpl; destruct (graphic_ref j); exact IH.
  - unfold set_joint_visibility in E.
    destruct (negb (eqb v (visible j))).
    + destruct (graphic_ref j); [|discriminate].
      injection E as <-. exact IH.
    + injection E as <-. exact IH.
Qed.

Lemma reachable_framed (P : graphic -> Prop) (j : DefaultJoint) :
  reachable P j -> framed j.
Proof.
  induction 1 as [from to axis given _ | j p _ IH | j a ax _ IH
                 | j v _ IH | j v j' _ IH E].
  - reflexivity.
  - destruct (update_position_frame j p) as (Ex & Ey & Ez & El).
    unfold framed. rewrite Ex, Ey, Ez, El. exact IH.
  - destruct (update_orientation_frame j a ax)
      as (Ex & Ey & Ez & El & _).
    unfold framed. rewrite Ex, Ey, Ez, El. reflexivity.
  - unfold draw_reference_frame.
    destruct v; simpl; destruct (graphic_ref j); exact IH.
  - unfold set_joint_visibility in E.
    destruct (negb (eqb v (visible j))).
    + destruct (graphic_ref j); [|discriminate].
      injection E as <-. exact IH.
    + injection E as <-. exact IH.
Qed.

(** ** Visibility of a joint and of its indicator *)

Lemma same_geometry_refl (j : DefaultJoint) : same_geometry j j.
Proof. unfold same_geometry. repeat split. Qed.

Lemma same_geometry_trans (j1 j2 j3 : DefaultJoint) :
  same_geometry j1 j2 -> same_geometry j2 j3 -> same_geometry j1 j3.
Proof.
  unfold same_geometry.
  intros (A1 & A2 & A3 & A4 & A5 & A6 & A7 & A8 & A9)
         (B1 & B2 & B3 & B4 & B5 & B6 & B7 & B8 & B9).
  rewrite B1, B2, B3, B4, B5, B6, B7, B8, B9. repeat split; assumption.
Qed.

Lemma same_geometry_sym (j1 j2 : DefaultJoint) :
  same_geometry j1 j2 -> same_geometry j2 j1.
Proof.
  unfold same_geometry.
  intros (A1 & A2 & A3 & A4 & A5 & A6 & A7 & A8 & A9).
  repeat split; symmetry; assumption.
Qed.

Lemma set_joint_visibility_geometry (j j' : DefaultJoint) (v : bool) :
  set_joint_visibility j v = Ok j' -> same_geometry j j'.
Proof.
  unfold set_joint_visibility.
  destruct (negb (eqb v (visible j))).
  - destruct (graphic_ref j); [|discriminate].
    intros E. injection E as <-.
    unfold same_geometry. simpl. repeat split.
  - intros E. injection E as <-. apply same_geometry_refl.
Qed.

Lemma draw_reference_frame_geometry (j : DefaultJoint) (v : bool) :
  same_geometry j (draw_reference_frame j v).
Proof.
  unfold draw_reference_frame.
  destruct v; simpl; destruct (graphic_ref j);
    unfold same_geometry; simpl; repeat split.
Qed.

Lemma set_joint_visibility_with_indicator (j : DefaultJoint) (f : frame)
                                          (v : bool) :
  graphic_ref j = Some f ->
  exists j',
    set_joint_visibility j v = Ok j' /\ visible j' = v /\
    same_geometry j j' /\
    (exists f', graphic_ref j' = Some f' /\
                (v <> visible j -> frame_visible f' = v)) /\
    (v <> visible j -> obj_visible (graphic_obj j') = v) /\
    (v = visible j -> j' = j).
Proof.
  intros Hf. unfold set_joint_visibility. rewrite Hf.
  destruct (eqb v (visible j)) eqn:E; simpl.
  - apply eqb_prop in E. exists j.
    split; [reflexivity|]. split; [symmetry; exact E|].
    split; [apply same_geometry_refl|]. split; [|split].
    + exists f. split; [exact Hf | intros H; contradiction].
    + intros H; contradiction.
    + intros _. reflexivity.
  - apply eqb_false_iff in E. eexists. split; [reflexivity|].
    split; [reflexivity|].
    split; [unfold same_geometry; simpl; repeat split|].
    split; [|split].
    + eexists. split; [reflexivity | intros _; reflexivity].
    + intros _. reflexivity.
    + intros H; contradiction.
Qed.

(** X1: a joint that came out of its constructor always has an indicator,
    so [set_joint_visibility] cannot raise on it: it returns a joint whose
    [visible] is the flag, with the geometry untouched; when the flag differs
    from the old [visible], the display object and the indicator take the
    flag too, and when it does not, nothing at all is written. *)
Theorem set_joint_visibility_never_raises (P : graphic -> Prop)
                                          (j : DefaultJoint) (v : bool) :
  reachable P j ->
  exists j',
    set_joint_visibility j v = Ok j' /\ visible j' = v /\
    same_geometry j j' /\
    (exists f', graphic_ref j' = Some f' /\
                (v <> visible j -> frame_visible f' = v)) /\
    (v <> visible j -> obj_visible (graphic_obj j') = v) /\
    (v = visible j -> j' = j).
Proof.
  intros H. destruct (reachable_indicated P j H) as [f Hf].
  apply (set_joint_visibility_with_indicator j f v Hf).
Qed.

Lemma draw_reference_frame_hide (j : DefaultJoint) (f : frame) :
  graphic_ref j = Some f ->
  graphic_ref (draw_reference_frame j false)
  = Some (indicator_at_tip j false).
Proof. intros H. unfold draw_reference_frame. simpl. rewrite H. reflexivity. Qed.

Lemma draw_reference_frame_show (j : DefaultJoint) (f : frame) :
  graphic_ref j = Some f ->
  graphic_ref (draw_reference_frame j true)
  = Some (indicator_at_tip j (frame_visible f)).
Proof. intros H. unfold draw_reference_frame. simpl. rewrite H. reflexivity. Qed.

Lemma indicator_at_tip_same (j j' : DefaultJoint) (shown : bool) :
  same_geometry j j' -> indicator_at_tip j' shown = indicator_at_tip j shown.
Proof.
  intros (_ & Et & Ex & Ey & _). unfold indicator_at_tip.
  rewrite Et, Ex, Ey. reflexivity.
Qed.

(** X2: on a joint that came out of its constructor,
    [draw_reference_frame(False)] hides the indicator and puts it at the
    tip; [draw_reference_frame(True)] moves it to the tip but never writes
    its flag, so an indicator hidden this way stays hidden through a later
    [draw_reference_frame(True)], [update_position] or
    [update_orientation]. *)
Theorem hidden_indicator_stays_hidden (P : graphic -> Prop)
                                      (j : DefaultJoint) :
  reachable P j ->
  let hidden := draw_reference_frame j false in
  graphic_ref hidden = Some (indicator_at_tip j false) /\
  (forall f, graphic_ref j = Some f ->
     graphic_ref (draw_reference_frame j true)
     = Some (indicator_at_tip j (frame_visible f))) /\
  graphic_ref (draw_reference_frame hidden true)
  = Some (indicator_at_tip j false) /\
  (forall p, graphic_ref (update_position hidden p)
             = Some (indicator_at_tip (update_position hidden p) false)) /\
  (forall a ax,
     graphic_ref (update_orientation hidden a ax)
     = Some (indicator_at_tip (update_orientation hidden a ax) false)).
Proof.
  intros H. cbv zeta. destruct (reachable_indicated P j H) as [f Hf].
  pose proof (draw_reference_frame_hide j f Hf) as Hh.
  split; [exact Hh|]. split; [|split; [|split]].
  - intros f' Hf'. apply draw_reference_frame_show, Hf'.
  - rewrite (draw_reference_frame_show _ _ Hh).
    cbn [frame_visible indicator_at_tip].
    rewrite (indicator_at_tip_same j _ false
               (draw_reference_frame_geometry j false)).
    reflexivity.
  - intros p. apply (update_position_indicator _ p _ Hh).
  - intros a ax.
    apply (proj1 (update_orientation_display
                    (draw_reference_frame j false) a ax) _ Hh).
Qed.

(** X3: after [update_position] and after [update_orientation] on a joint
    that came out of its constructor, the indicator sits at the new tip
    along the new x and y vectors with its flag unchanged, the display
    object sits at the origin along the same vectors, and no visibility
    flag has changed. *)
Theorem display_follows_joint (P : graphic -> Prop) (j : DefaultJoint) :
  reachable P j ->
  exists f, graphic_ref j = Some f /\
    forall j',
      (exists p, j' = update_position j p) \/
      (exists a ax, j' = update_orientation j a ax) ->
      graphic_ref j' = Some (indicator_at_tip j' (frame_visible f)) /\
      obj_pos (graphic_obj j') = connect_from j' /\
      obj_axis (graphic_obj j') = x_vector j' /\
      obj_up (graphic_obj j') = y_vector j' /\
      obj_visible (graphic_obj j') = obj_visible (graphic_obj j) /\
      visible j' = visible j.
Proof.
  intros H. destruct (reachable_indicated P j H) as [f Hf].
  exists f. split; [exact Hf|].
  intros j' [[p ->] | [a [ax ->]]].
  - destruct (update_position_object j p) as (Ep & Ea & Eu & Ev & Evis).
    destruct (update_position_frame j p) as (Ex & Ey & _).
    rewrite Ep, Ea, Eu, Ev, Evis, Ex, Ey, update_position_connect_from.
    split; [apply update_position_indicator, Hf | repeat split].
  - destruct (update_orientation_display j a ax)
      as (Ei & _ & Ep & Ev & Evis).
    destruct (update_orientation_frame j a ax)
      as (Ex & Ey & _ & _ & Ea & Eu & _).
    rewrite Ep, Ev, Evis, Ea, Eu, Ex, Ey.
    split; [apply Ei, Hf | repeat split].
Qed.

(** ** Moves compose *)

Lemma update_position_same_shape (j : DefaultJoint) (p : vector) :
  x_vector (update_position j p) = x_vector j /\
  y_vector (update_position j p) = y_vector j /\
  z_vector (update_position j p) = z_vector j /\
  x_rotation (update_position j p) = x_rotation j /\
  y_rotation (update_position j p) = y_rotation j /\
  z_rotation (update_position j p) = z_rotation j /\
  joint_length (update_position j p) = joint_length j.
Proof.
  destruct (update_position_frame j p) as (Ex & Ey & Ez & El).
  destruct (update_position_rotations j p) as (Rx & Ry & Rz).
  repeat split; assumption.
Qed.

Lemma update_position_to_origin (j : DefaultJoint) :
  same_geometry j (update_position j (connect_from j)).
Proof.
  destruct (update_position_same_shape j (connect_from j))
    as (Ex & Ey & Ez & Rx & Ry & Rz & El).
  unfold same_geometry.
  rewrite update_position_connect_from, update_position_connect_to.
  repeat split; try assumption.
  apply vec_eq; simpl; ring.
Qed.

Lemma span_update_position (j : DefaultJoint) (p : vector) :
  span (update_position j p) = span j.
Proof.
  unfold span.
  rewrite update_position_connect_from, update_position_connect_to.
  apply vec_eq; simpl; ring.
Qed.

(** X4: two [update_position] calls in a row leave the joint where the
    second one alone would have put it (origin, tip, tracking arrow, axes,
    angles and length), and moving a joint to the origin it already has
    changes none of these. *)
Theorem update_position_last_wins (j : DefaultJoint) (p q : vector) :
  same_geometry (update_position j q)
                (update_position (update_position j p) q) /\
  connect_dir (update_position (update_position j p) q)
  = connect_dir (update_position j q) /\
  same_geometry j (update_position j (connect_from j)).
Proof.
  split; [|split].
  - destruct (update_position_same_shape (update_position j p) q)
      as (Ex & Ey & Ez & Rx & Ry & Rz & El).
    destruct (update_position_same_shape j p)
      as (Ex1 & Ey1 & Ez1 & Rx1 & Ry1 & Rz1 & El1).
    destruct (update_position_same_shape j q)
      as (Ex2 & Ey2 & Ez2 & Rx2 & Ry2 & Rz2 & El2).
    unfold same_geometry.
    rewrite Ex, Ey, Ez, Rx, Ry, Rz, El, Ex1, Ey1, Ez1, Rx1, Ry1, Rz1, El1,
            Ex2, Ey2, Ez2, Rx2, Ry2, Rz2, El2.
    rewrite !update_position_connect_from, !update_position_connect_to.
    rewrite update_position_connect_from.
    repeat split. apply vec_eq; simpl; ring.
  - rewrite !update_position_connect_dir, update_position_connect_from.
    cbn [arrow_pos arrow_axis arrow_visible].
    f_equal. apply vec_eq; simpl; ring.
  - apply update_position_to_origin.
Qed.

(** ** Turns accumulate *)

Lemma wrap_to_pi_add (x y : R) :
  wrap_to_pi (wrap_to_pi x + y) = wrap_to_pi (x + y).
Proof.
  destruct (wrap_to_pi_turns x) as [m Hm].
  destruct (wrap_to_pi_turns (x + y)) as [n Hn].
  apply (wrap_to_pi_unique _ _ (n - m)); [apply wrap_to_pi_in_range|].
  rewrite Hn, Hm, minus_IZR. ring.
Qed.

Lemma equals_axes_distinct :
  equals (mkvec 0 1 0) (mkvec 1 0 0) = false /\
  equals (mkvec 0 0 1) (mkvec 1 0 0) = false /\
  equals (mkvec 0 0 1) (mkvec 0 1 0) = false.
Proof.
  repeat split; apply equals_false; intros E.
  - apply (f_equal vx) in E. simpl in E. lra.
  - apply (f_equal vx) in E. simpl in E. lra.
  - apply (f_equal vy) in E. simpl in E. lra.
Qed.

(** X5: successive [update_orientation] calls with the same axis argument
    add up modulo 2π on the accumulated angle, so a turn followed by the
    opposite turn restores the wrapped angle; a turn with axis (1,0,0)
    writes only [x_rotation] and one with axis (0,0,1) only [z_rotation]. *)
Theorem turns_accumulate (j : DefaultJoint) (a b : R) (ax : vector) :
  get_rotation_angle (update_orientation (update_orientation j a ax) b ax) ax
  = wrap_to_pi (get_rotation_angle j ax + (a + b)) /\
  get_rotation_angle
    (update_orientation (update_orientation j a ax) (- a) ax) ax
  = wrap_to_pi (get_rotation_angle j ax) /\
  (x_rotation (update_orientation j a (mkvec 1 0 0))
   = wrap_to_pi (x_rotation j + a) /\
   y_rotation (update_orientation j a (mkvec 1 0 0)) = y_rotation j /\
   z_rotation (update_orientation j a (mkvec 1 0 0)) = z_rotation j) /\
  (z_rotation (update_orientation j a (mkvec 0 0 1))
   = wrap_to_pi (z_rotation j + a) /\
   x_rotation (update_orientation j a (mkvec 0 0 1)) = x_rotation j /\
   y_rotation (update_orientation j a (mkvec 0 0 1)) = y_rotation j).
Proof.
  destruct equals_axes_distinct as (Eyx & Ezx & Ezy).
  split; [|split; [|split]].
  - rewrite !get_rotation_angle_update_orientation, wrap_to_pi_add.
    f_equal. ring.
  - rewrite !get_rotation_angle_update_orientation, wrap_to_pi_add.
    f_equal. ring.
  - destruct (update_orientation_rotations j a (mkvec 1 0 0))
      as (Ex & Ey & Ez).
    rewrite Ex, Ey, Ez. unfold select_axis. rewrite equals_refl.
    repeat split.
  - destruct (update_orientation_rotations j a (mkvec 0 0 1))
      as (Ex & Ey & Ez).
    rewrite Ex, Ey, Ez. unfold select_axis.
    rewrite Ezx, Ezy, equals_refl. repeat split.
Qed.

(** ** [rotate_joint] and [translate_joint] by class *)

Lemma update_orientation_joint_length (j : DefaultJoint) (a : R)
                                      (ax : vector) :
  joint_length (update_orientation j a ax) = joint_length j.
Proof. apply (update_orientation_frame j a ax). Qed.

(** X6: whatever the class, [rotate_joint] never moves a joint's origin and
    never changes its length or its class; it raises only on the base
    class, which has no such method, and leaves prismatic, static and
    gripper joints exactly as they are.  [translate_joint] exists on the
    prismatic class alone and changes nothing. *)
Theorem rotate_joint_by_class (j : Joint) (new_angle : R) :
  match rotate_joint j new_angle with
  | Ok j' =>
      connect_from (base_of j') = connect_from (base_of j) /\
      joint_length (base_of j') = joint_length (base_of j) /\
      with_base j (base_of j') = j' /\
      ((forall b ax, j <> RotationalJoint b ax) -> j' = j)
  | Raise e => e = AttributeError /\ exists b, j = Default b
  end /\
  match translate_joint j new_angle with
  | Ok j' => j' = j /\ exists b lo hi, j = PrismaticJoint b lo hi
  | Raise e =>
      e = AttributeError /\ forall b lo hi, j <> PrismaticJoint b lo hi
  end.
Proof.
  destruct j as [b | b ax | b lo hi | b | b]; simpl; split;
    try (split; [reflexivity|]);
    try (intros; discriminate);
    try (repeat split; reflexivity);
    try (eexists; reflexivity).
  - split; [apply update_orientation_connect_from|].
    split; [apply update_orientation_joint_length|].
    split; [reflexivity|].
    intros H. exfalso. apply (H b ax). reflexivity.
  - do 3 eexists. reflexivity.
Qed.

(** ** Rotations about a fixed direction *)

Lemma mag_zero_null (a : vector) : mag a = 0 -> a = mkvec 0 0 0.
Proof.
  intros H. apply sqrt_eq_0 in H; [|apply dot_self_nonneg].
  unfold dot in H. apply vec_eq; simpl; nra.
Qed.

Lemma set_mag_scale (v : vector) (L : R) :
  0 < mag v -> set_mag v L = vscale (L / mag v) v.
Proof.
  intros H. unfold set_mag. rewrite (hat_of_nonnull v H).
  apply vec_eq; simpl; field; lra.
Qed.

Lemma set_mag_self (v : vector) : set_mag v (mag v) = v.
Proof.
  destruct (mag_nonneg v) as [H | H].
  - rewrite (set_mag_scale v _ H). apply vec_eq; simpl; field; lra.
  - rewrite <- H, set_mag_null. symmetry. apply mag_zero_null.
    symmetry. exact H.
Qed.

Lemma rotate_zero (v axis : vector) : rotate v 0 axis = v.
Proof.
  unfold rotate. cbv zeta. rewrite cos_0, sin_0.
  apply vec_eq; simpl; ring.
Qed.

Lemma rotate_vscale (k : R) (v : vector) (a : R) (axis : vector) :
  rotate (vscale k v) a axis = vscale k (rotate v a axis).
Proof. unfold rotate. cbv zeta. apply vec_eq; simpl; ring. Qed.

Ltac rotation_identity axis H :=
  let Hu := fresh "Hu" in
  pose proof (dot_hat_hat axis H) as Hu;
  unfold rotate, dot, cross in *; cbv zeta; simpl in Hu |- *;
  set (x := vx (hat axis)) in *; set (y := vy (hat axis)) in *;
  set (z := vz (hat axis)) in *.

Lemma rotate_cross (a b : vector) (angle : R) (axis : vector) :
  0 < mag axis ->
  cross (rotate a angle axis) (rotate b angle axis)
  = rotate (cross a b) angle axis.
Proof.
  intros H. pose proof (sin2_cos2 angle) as Hsc. unfold Rsqr in Hsc.
  rotation_identity axis H.
  set (c := cos angle) in *. set (s := sin angle) in *.
  apply vec_eq; simpl; nsatz.
Qed.

Lemma rotate_rotate (v : vector) (a b : R) (axis : vector) :
  0 < mag axis ->
  rotate (rotate v a axis) b axis = rotate v (a + b) axis.
Proof.
  intros H. pose proof (sin2_cos2 a) as Ha. pose proof (sin2_cos2 b) as Hb.
  unfold Rsqr in Ha, Hb.
  rotation_identity axis H.
  rewrite cos_plus, sin_plus.
  set (ca := cos a) in *. set (sa := sin a) in *.
  set (cb := cos b) in *. set (sb := sin b) in *.
  apply vec_eq; simpl; nsatz.
Qed.

Lemma rotate_hat (axis : vector) (a : R) :
  0 < mag axis -> rotate (hat axis) a axis = hat axis.
Proof.
  intros H. rotation_identity axis H.
  set (c := cos a). set (s := sin a).
  apply vec_eq; simpl; nsatz.
Qed.

Lemma rotate_axis (axis : vector) (a : R) :
  0 < mag axis -> rotate axis a axis = axis.
Proof.
  intros H.
  assert (E : vscale (mag axis) (hat axis) = axis).
  { rewrite (hat_of_nonnull axis H). apply vec_eq; simpl; field; lra. }
  replace (rotate axis a axis)
    with (rotate (vscale (mag axis) (hat axis)) a axis)
    by (rewrite E; reflexivity).
  rewrite rotate_vscale, (rotate_hat axis a H). exact E.
Qed.

Lemma obj_rotate_axis (g : graphic) (a : R) (axis origin : vector) :
  obj_axis (obj_rotate g a axis origin) = rotate (obj_axis g) a axis.
Proof.
  unfold obj_rotate. destruct (Reqb a 0) eqn:E; [|reflexivity].
  apply Reqb_true_iff in E. subst a. symmetry. apply rotate_zero.
Qed.

Lemma obj_rotate_up (g : graphic) (a : R) (axis origin : vector) :
  obj_up (obj_rotate g a axis origin) = rotate (obj_up g) a axis.
Proof.
  unfold obj_rotate. destruct (Reqb a 0) eqn:E; [|reflexivity].
  apply Reqb_true_iff in E. subst a. symmetry. apply rotate_zero.
Qed.

Lemma arrow_rotate_axis (d : arrow) (a : R) (axis : vector) :
  arrow_axis (arrow_rotate d a axis) = rotate (arrow_axis d) a axis.
Proof.
  unfold arrow_rotate. destruct (Reqb a 0) eqn:E; [|reflexivity].
  apply Reqb_true_iff in E. subst a. symmetry. apply rotate_zero.
Qed.

Lemma tracked_span (j : DefaultJoint) :
  tracked j -> span j = arrow_axis (connect_dir j).
Proof.
  intros (Hp & Ht). unfold span. rewrite Ht, <- Hp.
  apply vec_eq; simpl; ring.
Qed.

Lemma select_axis_fst (j : DefaultJoint) (a : R) (ax : vector) :
  fst (select_axis j a ax)
  = if equals ax (mkvec 1 0 0) then x_vector j
    else if equals ax (mkvec 0 1 0) then y_vector j
    else if equals ax (mkvec 0 0 1) then z_vector j
    else y_vector j.
Proof.
  unfold select_axis.
  destruct (equals ax (mkvec 1 0 0)); [reflexivity|].
  destruct (equals ax (mkvec 0 1 0)); [reflexivity|].
  destruct (equals ax (mkvec 0 0 1)); reflexivity.
Qed.

Lemma mag_cross_orthogonal (a b : vector) :
  dot a b = 0 -> mag (cross a b) = mag a * mag b.
Proof.
  intros H. unfold mag at 1.
  rewrite dot_cross_cross, H, <- (mag_mag a), <- (mag_mag b).
  replace (mag a * mag a * (mag b * mag b) - 0 * 0)
    with ((mag a * mag b) * (mag a * mag b)) by ring.
  apply sqrt_square, Rmult_le_pos; apply mag_nonneg.
Qed.

(** What [update_orientation] does to a joint whose frame is orthogonal
    and whose length is positive: it turns the three axis vectors and the
    span about the selected local axis. *)
Lemma update_orientation_turns (j : DefaultJoint) (a : R) (ax : vector) :
  posed j -> tracked j -> framed j -> 0 < joint_length j ->
  let r := fst (select_axis j a ax) in
  let j' := update_orientation j a ax in
  0 < mag r /\
  x_vector j' = rotate (x_vector j) a r /\
  y_vector j' = rotate (y_vector j) a r /\
  z_vector j' = rotate (z_vector j) a r /\
  connect_to j' = (connect_from j +v rotate (span j) a r)%vec.
Proof.
  intros ((Hxy & Hyz & Hxz & Hx & Hy & Hz) & Ga & Gu & HL) Htr Hfr Hpos.
  cbv zeta.
  assert (Hr : 0 < mag (fst (select_axis j a ax))).
  { destruct (select_axis_is_local j a ax) as [-> | [-> | ->]]; lra. }
  destruct (update_orientation_frame j a ax)
    as (Ex & Ey & Ez & _ & _ & _ & Et).
  set (r := fst (select_axis j a ax)) in *.
  assert (Ex' : x_vector (update_orientation j a ax)
                = rotate (x_vector j) a r).
  { rewrite Ex, obj_rotate_axis, Ga, <- Hx.
    rewrite <- (mag_rotate (x_vector j) a r Hr). apply set_mag_self. }
  assert (Ey' : y_vector (update_orientation j a ax)
                = rotate (y_vector j) a r).
  { rewrite Ey, obj_rotate_up, Gu, <- Hy.
    rewrite <- (mag_rotate (y_vector j) a r Hr). apply set_mag_self. }
  split; [exact Hr|]. split; [exact Ex'|]. split; [exact Ey'|]. split.
  - rewrite Ez, <- Ex, <- Ey, Ex', Ey', rotate_cross by exact Hr.
    unfold framed in Hfr. rewrite Hfr.
    assert (Hc : 0 < mag (cross (x_vector j) (y_vector j))).
    { rewrite (mag_cross_orthogonal _ _ Hxy), Hx, Hy.
      apply Rmult_lt_0_compat; exact Hpos. }
    rewrite (set_mag_scale _ _ Hc), rotate_vscale.
    rewrite set_mag_scale by (rewrite mag_rotate by exact Hr; exact Hc).
    rewrite mag_rotate by exact Hr. reflexivity.
  - rewrite Et, arrow_rotate_pos, arrow_rotate_axis.
    rewrite (tracked_span j Htr). destruct Htr as (Hp & _).
    rewrite Hp. reflexivity.
Qed.

(** ** Turning a joint is a rotation about its origin *)

Lemma posed_axes_positive (j : DefaultJoint) :
  posed j -> 0 < joint_length j ->
  0 < mag (x_vector j) /\ 0 < mag (y_vector j) /\ 0 < mag (z_vector j).
Proof.
  intros ((_ & _ & _ & Hx & Hy & Hz) & _) Hpos.
  rewrite Hx, Hy, Hz. auto.
Qed.

Lemma selected_axis_stays (j : DefaultJoint) (a b : R) (ax : vector) :
  posed j -> tracked j -> framed j -> 0 < joint_length j ->
  fst (select_axis (update_orientation j a ax) b ax)
  = fst (select_axis j a ax).
Proof.
  intros Hp Ht Hf Hpos.
  destruct (update_orientation_turns j a ax Hp Ht Hf Hpos)
    as (_ & Ex & Ey & Ez & _).
  destruct (posed_axes_positive j Hp Hpos) as (Px & Py & Pz).
  rewrite !select_axis_fst in *.
  destruct (equals ax (mkvec 1 0 0)).
  { rewrite Ex. apply rotate_axis, Px. }
  destruct (equals ax (mkvec 0 1 0)).
  { rewrite Ey. apply rotate_axis, Py. }
  destruct (equals ax (mkvec 0 0 1)).
  { rewrite Ez. apply rotate_axis, Pz. }
  rewrite Ey. apply rotate_axis, Py.
Qed.

Lemma span_after_turn (j : DefaultJoint) (a : R) (ax : vector) :
  posed j -> tracked j -> framed j -> 0 < joint_length j ->
  span (update_orientation j a ax)
  = rotate (span j) a (fst (select_axis j a ax)).
Proof.
  intros Hp Ht Hf Hpos.
  destruct (update_orientation_turns j a ax Hp Ht Hf Hpos)
    as (_ & _ & _ & _ & Et).
  unfold span at 1. rewrite Et, update_orientation_connect_from.
  apply vec_eq; simpl; ring.
Qed.

(** X7: on a joint of positive length that came out of its constructor
    with a proper display object, [update_orientation] is a rotation by the
    given angle about the selected local axis through the origin: the
    origin stays, the x, y and z vectors and the vector from origin to tip
    are all turned by that rotation, so the distance from origin to tip is
    kept, and the local axis turned about is itself unchanged. *)
Theorem update_orientation_is_rotation (j : DefaultJoint) (a : R)
                                       (ax : vector) :
  reachable proper_pose j -> 0 < joint_length j ->
  let r := fst (select_axis j a ax) in
  let j' := update_orientation j a ax in
  connect_from j' = connect_from j /\
  x_vector j' = rotate (x_vector j) a r /\
  y_vector j' = rotate (y_vector j) a r /\
  z_vector j' = rotate (z_vector j) a r /\
  span j' = rotate (span j) a r /\
  mag (span j') = mag (span j) /\
  joint_length j' = joint_length j /\
  (forall b, fst (select_axis j' b ax) = r).
Proof.
  intros H Hpos. cbv zeta.
  pose proof (reachable_posed j H) as Hp.
  pose proof (reachable_tracked _ j H) as Ht.
  pose proof (reachable_framed _ j H) as Hf.
  destruct (update_orientation_turns j a ax Hp Ht Hf Hpos)
    as (Hr & Ex & Ey & Ez & _).
  pose proof (span_after_turn j a ax Hp Ht Hf Hpos) as Es.
  split; [apply update_orientation_connect_from|].
  repeat (split; [assumption|]). split; [|split].
  - rewrite Es. apply mag_rotate, Hr.
  - apply update_orientation_joint_length.
  - intros b. apply selected_axis_stays; assumption.
Qed.

(** ** Turning by nothing, and turning twice *)

Lemma Reqb_refl (a : R) : Reqb a a = true.
Proof. apply Reqb_true_iff. reflexivity. Qed.

Lemma select_axis_zero_rotations (j : DefaultJoint) (ax : vector) :
  rotations_wrapped j ->
  x_rotation (snd (select_axis j 0 ax)) = x_rotation j /\
  y_rotation (snd (select_axis j 0 ax)) = y_rotation j /\
  z_rotation (snd (select_axis j 0 ax)) = z_rotation j.
Proof.
  intros (Hx & Hy & Hz). unfold select_axis.
  destruct (equals ax (mkvec 1 0 0));
    [| destruct (equals ax (mkvec 0 1 0));
       [| destruct (equals ax (mkvec 0 0 1))]];
  simpl; rewrite Rplus_0_r, wrap_to_pi_id by assumption; repeat split.
Qed.

Lemma update_orientation_by_zero (j : DefaultJoint) (ax : vector) :
  posed j -> tracked j -> framed j -> rotations_wrapped j ->
  same_geometry j (update_orientation j 0 ax).
Proof.
  intros ((_ & _ & _ & Hx & Hy & _) & Ga & Gu & _) (Hp & Ht) Hf Hw.
  destruct (update_orientation_frame j 0 ax)
    as (Ex & Ey & Ez & El & _ & _ & Et).
  destruct (update_orientation_rotations j 0 ax) as (Rx & Ry & Rz).
  destruct (select_axis_zero_rotations j ax Hw) as (Sx & Sy & Sz).
  assert (Ex' : x_vector (update_orientation j 0 ax) = x_vector j).
  { rewrite Ex, obj_rotate_axis, rotate_zero, Ga, <- Hx.
    apply set_mag_self. }
  assert (Ey' : y_vector (update_orientation j 0 ax) = y_vector j).
  { rewrite Ey, obj_rotate_up, rotate_zero, Gu, <- Hy.
    apply set_mag_self. }
  unfold same_geometry.
  rewrite update_orientation_connect_from, Rx, Ry, Rz, Sx, Sy, Sz, El.
  repeat split; try assumption.
  - rewrite Et, arrow_rotate_pos, arrow_rotate_axis, rotate_zero.
    symmetry. exact Ht.
  - rewrite Ez, <- Ex, <- Ey, Ex', Ey'. symmetry. exact Hf.
Qed.

Lemma update_orientation_rotations_case (j : DefaultJoint) (a : R)
                                        (ax : vector) :
  x_rotation (update_orientation j a ax)
  = (if equals ax (mkvec 1 0 0) then wrap_to_pi (x_rotation j + a)
     else x_rotation j) /\
  y_rotation (update_orientation j a ax)
  = (if equals ax (mkvec 1 0 0) then y_rotation j
     else if equals ax (mkvec 0 1 0) then wrap_to_pi (y_rotation j + a)
     else if equals ax (mkvec 0 0 1) then y_rotation j
     else wrap_to_pi (y_rotation j + a)) /\
  z_rotation (update_orientation j a ax)
  = (if equals ax (mkvec 1 0 0) then z_rotation j
     else if equals ax (mkvec 0 1 0) then z_rotation j
     else if equals ax (mkvec 0 0 1) then wrap_to_pi (z_rotation j + a)
     else z_rotation j).
Proof.
  destruct (update_orientation_rotations j a ax) as (Ex & Ey & Ez).
  rewrite Ex, Ey, Ez. unfold select_axis.
  destruct (equals ax (mkvec 1 0 0)); [repeat split|].
  destruct (equals ax (mkvec 0 1 0)); [repeat split|].
  destruct (equals ax (mkvec 0 0 1)); repeat split.
Qed.

Lemma update_orientation_rotations_add (j : DefaultJoint) (a b : R)
                                       (ax : vector) :
  x_rotation (update_orientation (update_orientation j a ax) b ax)
  = x_rotation (update_orientation j (a + b) ax) /\
  y_rotation (update_orientation (update_orientation j a ax) b ax)
  = y_rotation (update_orientation j (a + b) ax) /\
  z_rotation (update_orientation (update_orientation j a ax) b ax)
  = z_rotation (update_orientation j (a + b) ax).
Proof.
  destruct (update_orientation_rotations_case
              (update_orientation j a ax) b ax) as (Ax & Ay & Az).
  destruct (update_orientation_rotations_case j (a + b) ax)
    as (Bx & By & Bz).
  destruct (update_orientation_rotations_case j a ax) as (Cx & Cy & Cz).
  rewrite Ax, Ay, Az, Bx, By, Bz, Cx, Cy, Cz.
  destruct (equals ax (mkvec 1 0 0));
    [| destruct (equals ax (mkvec 0 1 0));
       [| destruct (equals ax (mkvec 0 0 1))]];
  repeat split; rewrite wrap_to_pi_add; f_equal; ring.
Qed.

Lemma reachable_good (j : DefaultJoint) :
  reachable proper_pose j ->
  posed j /\ tracked j /\ framed j /\ rotations_wrapped j.
Proof.
  intros H. split; [apply reachable_posed, H|].
  split; [apply (reachable_tracked _ j H)|].
  split; [apply (reachable_framed _ j H)|].
  apply reachable_rotations_wrapped, (reachable_weaken _ j H).
Qed.


Lemma update_orientation_twice (j : DefaultJoint) (a b : R) (ax : vector) :
  posed j -> tracked j -> framed j -> 0 < joint_length j ->
  same_geometry (update_orientation j (a + b) ax)
                (update_orientation (update_orientation j a ax) b ax).
Proof.
  intros Hp Ht Hf Hpos.
  set (j1 := update_orientation j a ax).
  assert (Hp1 : posed j1) by (apply posed_after_update_orientation, Hp).
  assert (Ht1 : tracked j1) by (apply tracked_after_update_orientation, Ht).
  assert (Hf1 : framed j1).
  { unfold framed, j1.
    destruct (update_orientation_frame j a ax) as (Ex & Ey & Ez & El & _).
    rewrite Ex, Ey, Ez, El. reflexivity. }
  assert (Hpos1 : 0 < joint_length j1)
    by (unfold j1; rewrite update_orientation_joint_length; exact Hpos).
  destruct (update_orientation_turns j a ax Hp Ht Hf Hpos)
    as (Hr & Ex1 & Ey1 & Ez1 & _).
  destruct (update_orientation_turns j1 b ax Hp1 Ht1 Hf1 Hpos1)
    as (_ & Ex2 & Ey2 & Ez2 & Et2).
  destruct (update_orientation_turns j (a + b) ax Hp Ht Hf Hpos)
    as (_ & Ex3 & Ey3 & Ez3 & Et3).
  pose proof (selected_axis_stays j a b ax Hp Ht Hf Hpos) as Er. fold j1 in Er.
  pose proof (span_after_turn j a ax Hp Ht Hf Hpos) as Es. fold j1 in Es.
  assert (Er3 : fst (select_axis j (a + b) ax) = fst (select_axis j a ax))
    by (rewrite !select_axis_fst; reflexivity).
  destruct (update_orientation_rotations_add j a b ax) as (Rx & Ry & Rz).
  fold j1 in Rx, Ry, Rz, Ex1, Ey1, Ez1.
  unfold same_geometry.
  rewrite Rx, Ry, Rz, Ex2, Ey2, Ez2, Et2, Ex3, Ey3, Ez3, Et3, Er, Er3, Es.
  rewrite Ex1, Ey1, Ez1, !rotate_rotate by exact Hr.
  rewrite !update_orientation_joint_length.
  unfold j1. rewrite !update_orientation_connect_from.
  repeat split. apply update_orientation_joint_length.
Qed.

(** X9: on a joint of positive length that came out of its constructor
    with a proper display object, two turns with the same axis argument
    compose into the turn by the sum of the angles (origin, tip, axes,
    accumulated angles and length all agree), and a turn followed by the
    opposite turn puts the joint back where it was. *)
Theorem turns_compose (j : DefaultJoint) (a b : R) (ax : vector) :
  reachable proper_pose j -> 0 < joint_length j ->
  same_geometry (update_orientation j (a + b) ax)
                (update_orientation (update_orientation j a ax) b ax) /\
  same_geometry j
                (update_orientation (update_orientation j a ax) (- a) ax).
Proof.
  intros H Hpos. destruct (reachable_good j H) as (Hp & Ht & Hf & Hw).
  split.
  - apply update_orientation_twice; assumption.
  - apply same_geometry_trans with (update_orientation j (a + - a) ax).
    + rewrite Rplus_opp_r. apply update_orientation_by_zero; assumption.
    + apply update_orientation_twice; assumption.
Qed.

(** ** The frame is right-handed *)

(** X10: in every state a joint built on a proper display object reaches,
    the cross product of its x and y vectors is its z vector scaled by the
    length: the frame is right-handed, never mirrored. *)
Theorem frame_is_right_handed (j : DefaultJoint) :
  reachable proper_pose j ->
  cross (x_vector j) (y_vector j) = vscale (joint_length j) (z_vector j).
Proof.
  intros H.
  destruct (reachable_good j H)
    as (((Hxy & _ & _ & Hx & Hy & _) & _ & _ & HL) & _ & Hf & _).
  unfold framed in Hf. rewrite Hf. destruct HL as [Hpos | Hz].
  - assert (Hc : 0 < mag (cross (x_vector j) (y_vector j))).
    { rewrite (mag_cross_orthogonal _ _ Hxy), Hx, Hy.
      apply Rmult_lt_0_compat; exact Hpos. }
    rewrite (set_mag_scale _ _ Hc).
    rewrite (mag_cross_orthogonal _ _ Hxy), Hx, Hy.
    apply vec_eq; simpl; field; lra.
  - rewrite <- Hz in *. rewrite set_mag_null.
    rewrite (mag_zero_null _ Hx).
    apply vec_eq; simpl; ring.
Qed.

(** ** The frame the constructor builds on the placeholder *)

Lemma placeholder_length (from to : vector) :
  Rmax (Rmax (mag (to -v from)%vec) (1 / 10)) (1 / 10)
  = Rmax (mag (to -v from)%vec) (1 / 10).
Proof. apply Rmax_left, Rmax_r. Qed.

Lemma set_mag_along_x (L : R) : set_mag (mkvec 1 0 0) L = mkvec L 0 0.
Proof.
  unfold set_mag. rewrite hat_of_unit by (unfold dot; simpl; lra).
  apply vec_eq; simpl; ring.
Qed.

Lemma set_mag_along_y (L : R) : set_mag (mkvec 0 1 0) L = mkvec 0 L 0.
Proof.
  unfold set_mag. rewrite hat_of_unit by (unfold dot; simpl; lra).
  apply vec_eq; simpl; ring.
Qed.

Lemma set_mag_cross_xy (L : R) :
  0 < L -> set_mag (cross (mkvec L 0 0) (mkvec 0 L 0)) L = mkvec 0 0 L.
Proof.
  intros H.
  assert (Hm : mag (cross (mkvec L 0 0) (mkvec 0 L 0)) = L * L).
  { unfold mag, dot, cross. simpl.
    replace ((0 * 0 - 0 * L) * (0 * 0 - 0 * L)
             + (0 * 0 - L * 0) * (0 * 0 - L * 0)
             + (L * L - 0 * 0) * (L * L - 0 * 0))
      with ((L * L) * (L * L)) by ring.
    apply sqrt_square. nra. }
  assert (Hp : 0 < L * L) by (apply Rmult_lt_0_compat; exact H).
  rewrite set_mag_scale by (rewrite Hm; exact Hp).
  rewrite Hm. apply vec_eq; simpl; field; lra.
Qed.

(** X11: a joint built on the placeholder has length
    max(|tip − origin|, 0.1) and its frame lies along the world axes, x on
    +x, y on +y and z on +z, each of that length, whatever the direction
    from origin to tip; the [axis] argument of the constructor has no
    effect on origin, tip, axes, angles or length, with or without a
    display object. *)
Theorem constructor_frame (from to axis : vector) :
  let j := DefaultJoint_init from to axis None in
  let L := Rmax (mag (to -v from)%vec) (1 / 10) in
  joint_length j = L /\
  x_vector j = mkvec L 0 0 /\
  y_vector j = mkvec 0 L 0 /\
  z_vector j = mkvec 0 0 L /\
  connect_from j = from /\ connect_to j = to /\
  (forall ax, get_rotation_angle j ax = 0) /\
  (forall axis' given,
     same_geometry (DefaultJoint_init from to axis given)
                   (DefaultJoint_init from to axis' given)).
Proof.
  cbv zeta.
  assert (HL : 0 < Rmax (mag (to -v from)%vec) (1 / 10)).
  { apply Rlt_le_trans with (1 / 10); [lra | apply Rmax_r]. }
  unfold DefaultJoint_init, update_reference_frame. cbv zeta.
  cbn [x_vector y_vector z_vector joint_length graphic_obj set_graphic
       default_box obj_axis obj_up obj_length obj_width obj_height
       connect_from connect_to].
  rewrite placeholder_length, set_mag_along_x, set_mag_along_y.
  rewrite (set_mag_cross_xy _ HL).
  repeat split.
  intros ax. unfold get_rotation_angle.
  cbn [x_rotation y_rotation z_rotation]. rewrite radians_0.
  destruct (equals ax (mkvec 1 0 0)); [reflexivity|].
  destruct (equals ax (mkvec 0 1 0)); [reflexivity|].
  destruct (equals ax (mkvec 0 0 1)); reflexivity.
Qed.

(** ** [rotate_joint] reaches an absolute angle *)

Lemma IZR_nat_or_opp (k : Z) :
  exists n : nat, IZR k = INR n \/ IZR k = - INR n.
Proof.
  destruct (Z_le_gt_dec 0 k) as [H | H].
  - exists (Z.to_nat k). left. rewrite INR_IZR_INZ, Z2Nat.id by exact H.
    reflexivity.
  - exists (Z.to_nat (- k)). right.
    rewrite INR_IZR_INZ, Z2Nat.id by lia. rewrite opp_IZR. ring.
Qed.

Lemma cos_turns (a : R) (k : Z) : cos (a + 2 * PI * IZR k) = cos a.
Proof.
  destruct (IZR_nat_or_opp k) as [n [E | E]]; rewrite E.
  - replace (a + 2 * PI * INR n) with (a + 2 * INR n * PI) by ring.
    apply cos_period.
  - rewrite <- (cos_period (a + 2 * PI * - INR n) n). f_equal. ring.
Qed.

Lemma sin_turns (a : R) (k : Z) : sin (a + 2 * PI * IZR k) = sin a.
Proof.
  destruct (IZR_nat_or_opp k) as [n [E | E]]; rewrite E.
  - replace (a + 2 * PI * INR n) with (a + 2 * INR n * PI) by ring.
    apply sin_period.
  - rewrite <- (sin_period (a + 2 * PI * - INR n) n). f_equal. ring.
Qed.

Lemma rotate_turns (v : vector) (a : R) (k : Z) (axis : vector) :
  rotate v (a + 2 * PI * IZR k) axis = rotate v a axis.
Proof. unfold rotate. rewrite cos_turns, sin_turns. reflexivity. Qed.

Lemma wrap_to_pi_turns_invariant (a : R) (k : Z) :
  wrap_to_pi (a + 2 * PI * IZR k) = wrap_to_pi a.
Proof.
  destruct (wrap_to_pi_turns a) as [m Hm].
  apply (wrap_to_pi_unique _ _ (m - k)); [apply wrap_to_pi_in_range|].
  rewrite Hm, minus_IZR. ring.
Qed.

Lemma update_orientation_periodic (j : DefaultJoint) (a : R) (k : Z)
                                  (ax : vector) :
  posed j -> tracked j -> framed j -> 0 < joint_length j ->
  same_geometry (update_orientation j a ax)
                (update_orientation j (a + 2 * PI * IZR k) ax).
Proof.
  intros Hp Ht Hf Hpos.
  destruct (update_orientation_turns j a ax Hp Ht Hf Hpos)
    as (_ & Ex & Ey & Ez & Et).
  destruct (update_orientation_turns j (a + 2 * PI * IZR k) ax
              Hp Ht Hf Hpos) as (_ & Ex' & Ey' & Ez' & Et').
  assert (Er : fst (select_axis j (a + 2 * PI * IZR k) ax)
               = fst (select_axis j a ax))
    by (rewrite !select_axis_fst; reflexivity).
  destruct (update_orientation_rotations_case j a ax) as (Rx & Ry & Rz).
  destruct (update_orientation_rotations_case j (a + 2 * PI * IZR k) ax)
    as (Rx' & Ry' & Rz').
  unfold same_geometry.
  rewrite Ex, Ey, Ez, Et, Ex', Ey', Ez', Et', Er, !rotate_turns.
  rewrite Rx, Ry, Rz, Rx', Ry', Rz'.
  rewrite !update_orientation_connect_from,
          !update_orientation_joint_length.
  replace (x_rotation j + (a + 2 * PI * IZR k))
    with (x_rotation j + a + 2 * PI * IZR k) by ring.
  replace (y_rotation j + (a + 2 * PI * IZR k))
    with (y_rotation j + a + 2 * PI * IZR k) by ring.
  replace (z_rotation j + (a + 2 * PI * IZR k))
    with (z_rotation j + a + 2 * PI * IZR k) by ring.
  rewrite !wrap_to_pi_turns_invariant.
  repeat split.
Qed.

Lemma rotate_joint_reaches (b : DefaultJoint) (ax : vector) (t : R) :
  get_rotation_angle (update_orientation b (angle_diff b ax t) ax) ax
  = wrap_to_pi t.
Proof.
  rewrite get_rotation_angle_update_orientation. unfold angle_diff.
  apply wrap_to_pi_delta, wrap_to_pi_in_range.
Qed.

Lemma angle_diff_chain (b : DefaultJoint) (ax : vector) (t1 t2 : R) :
  exists k : Z,
    angle_diff b ax t1
    + angle_diff (update_orientation b (angle_diff b ax t1) ax) ax t2
    = angle_diff b ax t2 + 2 * PI * IZR k.
Proof.
  unfold angle_diff at 2. rewrite rotate_joint_reaches. unfold angle_diff.
  destruct (wrap_to_pi_turns (wrap_to_pi t1 - get_rotation_angle b ax))
    as [k1 H1].
  destruct (wrap_to_pi_turns (wrap_to_pi t2 - wrap_to_pi t1)) as [k2 H2].
  destruct (wrap_to_pi_turns (wrap_to_pi t2 - get_rotation_angle b ax))
    as [k3 H3].
  exists (k1 + k2 - k3)%Z.
  rewrite H1, H2, H3, minus_IZR, plus_IZR. ring.
Qed.

(** X12: [rotate_joint] sets an absolute pose.  On a rotational joint of
    positive length built on a proper display object, asking for one angle
    and then for another leaves origin, tip, axes, accumulated angles and
    length exactly where asking for the second angle alone would have; in
    particular asking twice for the same angle changes nothing the second
    time. *)
Theorem rotate_joint_is_absolute (b : DefaultJoint) (rotation_axis : vector)
                                 (angle1 angle2 : R) :
  reachable proper_pose b -> 0 < joint_length b ->
  exists b1 b2 b2',
    rotate_joint (RotationalJoint b rotation_axis) angle1
    = Ok (RotationalJoint b1 rotation_axis) /\
    rotate_joint (RotationalJoint b1 rotation_axis) angle2
    = Ok (RotationalJoint b2 rotation_axis) /\
    rotate_joint (RotationalJoint b rotation_axis) angle2
    = Ok (RotationalJoint b2' rotation_axis) /\
    same_geometry b2' b2 /\
    (angle2 = angle1 -> same_geometry b1 b2).
Proof.
  intros H Hpos. destruct (reachable_good b H) as (Hp & Ht & Hf & _).
  do 3 eexists. split; [reflexivity|]. split; [reflexivity|].
  split; [reflexivity|].
  assert (Hs : same_geometry
                 (update_orientation b
                    (angle_diff b rotation_axis angle2) rotation_axis)
                 (update_orientation
                    (update_orientation b
                       (angle_diff b rotation_axis angle1) rotation_axis)
                    (angle_diff
                       (update_orientation b
                          (angle_diff b rotation_axis angle1) rotation_axis)
                       rotation_axis angle2)
                    rotation_axis)).
  { destruct (angle_diff_chain b rotation_axis angle1 angle2) as [k Hk].
    eapply same_geometry_trans.
    - apply (update_orientation_periodic b _ k rotation_axis Hp Ht Hf Hpos).
    - rewrite <- Hk. apply update_orientation_twice; assumption. }
  split; [exact Hs|].
  intros ->. exact Hs.
Qed.

(** ** The propagation pass moves joints without turning them *)

Lemma same_shape_refl (j : DefaultJoint) : same_shape j j.
Proof. unfold same_shape. repeat split. Qed.

Lemma same_shape_trans (j1 j2 j3 : DefaultJoint) :
  same_shape j1 j2 -> same_shape j2 j3 -> same_shape j1 j3.
Proof.
  unfold same_shape.
  intros (A1 & A2 & A3 & A4 & A5 & A6 & A7 & A8)
         (B1 & B2 & B3 & B4 & B5 & B6 & B7 & B8).
  rewrite B1, B2, B3, B4, B5, B6, B7, B8. repeat split; assumption.
Qed.

Lemma update_position_shape (j : DefaultJoint) (p : vector) :
  same_shape j (update_position j p).
Proof.
  destruct (update_position_same_shape j p)
    as (Ex & Ey & Ez & Rx & Ry & Rz & El).
  unfold same_shape. rewrite span_update_position.
  repeat split; assumption.
Qed.

Lemma same_class_refl (j : Joint) : same_class j j.
Proof. destruct j; reflexivity. Qed.

Lemma same_class_with_base (j : Joint) (b : DefaultJoint) :
  same_class j (with_base j b).
Proof. destruct j; reflexivity. Qed.

Lemma same_class_trans (j1 j2 j3 : Joint) :
  same_class j1 j2 -> same_class j2 j3 -> same_class j1 j3.
Proof.
  unfold same_class. intros H12 H23.
  rewrite <- H23. rewrite <- H12. destruct j1; reflexivity.
Qed.

Lemma nth_error_in_tail (js : list nat) (i k : nat) :
  (1 <= i)%nat -> nth_error js i = Some k -> In k (tl js).
Proof.
  intros Hi H. destruct i as [|i]; [lia|].
  destruct js as [|a js]; [discriminate|].
  simpl in *. apply (nth_error_In _ _ H).
Qed.

Lemma position_joints_run (r : Robot) (l : list nat) (h : store) :
  (forall i, In i l -> (1 <= i < length (joints r))%nat) ->
  exists h',
    for_each (position_joint r) l h = Ok h' /\
    (forall k, same_shape (base_of (h k)) (base_of (h' k)) /\
               same_class (h k) (h' k)) /\
    (forall k, ~ In k (tl (joints r)) -> h' k = h k).
Proof.
  revert h. induction l as [|i l IH]; intros h Hl.
  - exists h. split; [reflexivity|]. split; [|reflexivity].
    intros k. split; [apply same_shape_refl | apply same_class_refl].
  - assert (Hi : (1 <= i < length (joints r))%nat)
      by (apply Hl; left; reflexivity).
    simpl. unfold position_joint at 1.
    destruct (nth_error (joints r) i) as [cur|] eqn:Ecur.
    2:{ apply nth_error_None in Ecur. lia. }
    destruct (nth_error (joints r) (i - 1)) as [prev|] eqn:Eprev.
    2:{ apply nth_error_None in Eprev. lia. }
    simpl.
    destruct (IH (call_update_position h cur
                    (get_connection_to_pos (base_of (h prev)))))
      as (h' & Hrun & Hshape & Hout).
    { intros i' Hi'. apply Hl. right. exact Hi'. }
    exists h'. split; [exact Hrun|]. split.
    + intros k. destruct (Hshape k) as (Hs & Hc).
      destruct (Nat.eq_dec k cur) as [-> | Hne].
      * rewrite call_update_position_same in Hs.
        unfold call_update_position in Hc. rewrite upd_same in Hc.
        split.
        -- eapply same_shape_trans; [apply update_position_shape | exact Hs].
        -- eapply same_class_trans; [apply same_class_with_base | exact Hc].
      * rewrite call_update_position_other in Hs, Hc by exact Hne.
        split; assumption.
    + intros k Hk. rewrite (Hout k Hk).
      apply call_update_position_other. intros ->. apply Hk.
      apply (nth_error_in_tail _ i); [lia | exact Ecur].
Qed.

Lemma seq_from_one (n i : nat) :
  In i (seq 1 (n - 1)) -> (1 <= i < n)%nat.
Proof. intros H. apply in_seq in H. lia. Qed.

(** X13: [Robot.__init__] never raises, whatever joints it is given (even
    none, or one joint listed twice): it returns a shown robot over the same
    list.  The pass only translates: every joint keeps its span, axes,
    accumulated angles, length and class, and a joint that is not listed
    after the first position (the base joint of a chain of distinct joints,
    or any joint outside the chain) is not touched at all. *)
Theorem robot_init_translates_only (js : list nat) (h : store) :
  exists r h',
    Robot_init js h = Ok (r, h') /\
    joints r = js /\ num_joints r = length js /\ is_shown r = true /\
    (forall k, same_shape (base_of (h k)) (base_of (h' k)) /\
               same_class (h k) (h' k)) /\
    (forall k, ~ In k (tl js) -> h' k = h k).
Proof.
  unfold Robot_init, position_joints. cbn [joints num_joints].
  destruct (position_joints_run
              {| joints := js; num_joints := length js; is_shown := true |}
              (seq 1 (length js - 1)) h)
    as (h' & Hrun & Hshape & Hout).
  { intros i Hi. apply seq_from_one, Hi. }
  rewrite Hrun. simpl.
  exists {| joints := js; num_joints := length js; is_shown := true |}, h'.
  split; [reflexivity|]. split; [reflexivity|]. split; [reflexivity|].
  split; [reflexivity|]. split; [exact Hshape | exact Hout].
Qed.

(** ** A second pass changes nothing *)

Lemma position_joints_settled (r : Robot) (h0 : store) (l : list nat)
                              (h : store) :
  contiguous r h0 ->
  (forall i, In i l -> (1 <= i < length (joints r))%nat) ->
  (forall k, same_geometry (base_of (h0 k)) (base_of (h k))) ->
  exists h',
    for_each (position_joint r) l h = Ok h' /\
    forall k, same_geometry (base_of (h0 k)) (base_of (h' k)).
Proof.
  intros Hc. revert h. induction l as [|i l IH]; intros h Hl Hsame.
  - exists h. split; [reflexivity | exact Hsame].
  - assert (Hi : (1 <= i < length (joints r))%nat)
      by (apply Hl; left; reflexivity).
    simpl. unfold position_joint at 1.
    destruct (nth_error (joints r) i) as [cur|] eqn:Ecur.
    2:{ apply nth_error_None in Ecur. lia. }
    destruct (nth_error (joints r) (i - 1)) as [prev|] eqn:Eprev.
    2:{ apply nth_error_None in Eprev. lia. }
    simpl. apply IH.
    + intros i' Hi'. apply Hl. right. exact Hi'.
    + intros k. destruct (Nat.eq_dec k cur) as [-> | Hne].
      * rewrite call_update_position_same. unfold get_connection_to_pos.
        assert (E : connect_to (base_of (h prev))
                    = connect_from (base_of (h cur))).
        { destruct (Hsame prev) as (_ & Et & _).
          destruct (Hsame cur) as (Ef & _).
          rewrite Et, Ef. symmetry.
          apply (Hc i cur prev); [lia | exact Ecur | exact Eprev]. }
        rewrite E.
        eapply same_geometry_trans;
          [apply Hsame | apply update_position_to_origin].
      * rewrite call_update_position_other by exact Hne. apply Hsame.
Qed.

(** X14: on a chain that is already glued, a propagation pass returns
    normally and leaves origin, tip, axes, accumulated angles and length of
    every joint as they were, so the chain is still glued. *)
Theorem second_pass_changes_nothing (r : Robot) (h : store) :
  contiguous r h -> num_joints r = length (joints r) ->
  exists h',
    position_joints r h = Ok h' /\
    (forall k, same_geometry (base_of (h k)) (base_of (h' k))) /\
    contiguous r h'.
Proof.
  intros Hc Hn. unfold position_joints. rewrite Hn.
  destruct (position_joints_settled r h (seq 1 (length (joints r) - 1)) h Hc)
    as (h' & Hrun & Hsame).
  { intros i Hi. apply seq_from_one, Hi. }
  { intros k. apply same_geometry_refl. }
  exists h'. split; [exact Hrun|]. split; [exact Hsame|].
  intros i cur prev Hi Ecur Eprev.
  destruct (Hsame cur) as (Ef & _). destruct (Hsame prev) as (_ & Et & _).
  rewrite Ef, Et. apply (Hc i cur prev Hi Ecur Eprev).
Qed.

(** ** Where the constructor puts the joints *)

Lemma sum_spans_snoc (h : store) (l : list nat) (k : nat) (start : vector) :
  sum_spans h (l ++ [k]) start
  = (sum_spans h l start +v span (base_of (h k)))%vec.
Proof.
  revert start. induction l as [|a l IH]; intros start; simpl.
  - reflexivity.
  - apply IH.
Qed.

Lemma firstn_succ (js : list nat) (i k : nat) :
  nth_error js i = Some k -> firstn (S i) js = firstn i js ++ [k].
Proof.
  revert i. induction js as [|a js IH]; intros i H.
  - destruct i; discriminate.
  - destruct i as [|i]; simpl in *.
    + injection H as ->. reflexivity.
    + f_equal. apply IH. exact H.
Qed.

Lemma tip_is_origin_plus_span (j : DefaultJoint) :
  connect_to j = (connect_from j +v span j)%vec.
Proof. unfold span. apply vec_eq; simpl; ring. Qed.

(** X15: the constructor lays a chain of distinct joints out end to end
    from the base joint's origin: joint number i ends up with its origin at
    the base origin plus the spans the first i joints had before the call,
    and its tip one span further.  (Two joints from (0,0,0) to (1,0,0)
    become (0,0,0)-(1,0,0) and (1,0,0)-(2,0,0).) *)
Theorem chain_layout (first : nat) (rest : list nat) (h : store) :
  NoDup (first :: rest) ->
  exists r h',
    Robot_init (first :: rest) h = Ok (r, h') /\
    forall i cur,
      nth_error (first :: rest) i = Some cur ->
      connect_from (base_of (h' cur))
      = sum_spans h (firstn i (first :: rest))
                  (connect_from (base_of (h first))) /\
      connect_to (base_of (h' cur))
      = sum_spans h (firstn (S i) (first :: rest))
                  (connect_from (base_of (h first))).
Proof.
  intros Hnd.
  set (js := first :: rest) in *.
  set (r := {| joints := js; num_joints := length js; is_shown := true |}).
  destruct (position_joints_contiguous r h Hnd eq_refl) as (h' & Hrun & Hc).
  destruct (position_joints_run r (seq 1 (length js - 1)) h)
    as (h2 & Hrun2 & Hshape & Hout).
  { intros i Hi. apply seq_from_one, Hi. }
  unfold position_joints in Hrun. cbn [num_joints joints r] in Hrun.
  cbn [joints r] in Hrun2. rewrite Hrun in Hrun2. injection Hrun2 as <-.
  exists r, h'. split.
  { unfold Robot_init, position_joints. cbn [num_joints joints].
    fold js r. rewrite Hrun. reflexivity. }
  assert (Hfirst : h' first = h first).
  { apply Hout. cbn [joints r tl js]. apply NoDup_cons_iff in Hnd. tauto. }
  assert (Hspan : forall k, span (base_of (h' k)) = span (base_of (h k)))
    by (intros k; apply (Hshape k)).
  induction i as [|i IH]; intros cur Hcur.
  - cbn [js nth_error] in Hcur. injection Hcur as <-.
    rewrite tip_is_origin_plus_span, Hspan, Hfirst. split; reflexivity.
  - assert (Hi : (i < length js)%nat).
    { assert (S i < length js)%nat by (apply nth_error_Some; congruence).
      lia. }
    destruct (nth_error js i) as [prev|] eqn:Eprev.
    2:{ apply nth_error_None in Eprev. lia. }
    destruct (IH prev eq_refl) as (_ & IHt).
    assert (Ef : connect_from (base_of (h' cur))
                 = connect_to (base_of (h' prev))).
    { apply (Hc (S i) cur prev); [lia | exact Hcur |].
      cbn [joints r]. replace (S i - 1)%nat with i by lia. exact Eprev. }
    split.
    + rewrite Ef. exact IHt.
    + rewrite tip_is_origin_plus_span, Hspan, Ef, IHt.
      rewrite (firstn_succ js (S i) cur Hcur), sum_spans_snoc.
      reflexivity.
Qed.

(** ** Visibility of a whole robot *)

Lemma show_joints_run (v : bool) (l : list nat) (r : Robot) (h : store) :
  (forall k, In k l -> exists f, graphic_ref (base_of (h k)) = Some f) ->
  exists r' h',
    for_each (show_joint v) l (r, h) = Ok (r', h') /\
    joints r' = joints r /\ num_joints r' = num_joints r /\
    (l <> [] -> is_shown r' = v) /\
    (forall k, In k l -> visible (base_of (h' k)) = v) /\
    (forall k, ~ In k l -> h' k = h k) /\
    (forall k, same_geometry (base_of (h k)) (base_of (h' k)) /\
               same_class (h k) (h' k)).
Proof.
  revert r h. induction l as [|a l IH]; intros r h Hind.
  - exists r, h. split; [reflexivity|]. repeat split; auto.
    + intros H. contradiction.
    + intros k [].
    + apply same_class_refl.
  - destruct (Hind a (or_introl eq_refl)) as [f Hf].
    destruct (set_joint_visibility_with_indicator (base_of (h a)) f v Hf)
      as (b & Hb & Hvis & Hgeo & (f' & Hf' & _) & _ & _).
    simpl. rewrite Hb. simpl.
    set (r1 := {| joints := joints r; num_joints := num_joints r;
                  is_shown := v |}).
    set (h1 := upd h a (with_base (h a) b)).
    destruct (IH r1 h1) as (r' & h' & Hrun & Hj & Hn & Hs & Hv & Hout & Hg).
    { intros k Hk. unfold h1. destruct (Nat.eq_dec k a) as [-> | Hne].
      - rewrite upd_same, base_of_with_base. exists f'. exact Hf'.
      - rewrite upd_other by exact Hne. apply Hind. right. exact Hk. }
    exists r', h'. split; [exact Hrun|].
    split; [exact Hj|]. split; [exact Hn|]. split; [|split; [|split]].
    + intros _. destruct l as [|a' l'].
      * simpl in Hrun. injection Hrun as <- <-. reflexivity.
      * apply Hs. discriminate.
    + intros k [<- | Hk]; [|apply Hv, Hk].
      destruct (in_dec Nat.eq_dec a l) as [Hin | Hnin]; [apply Hv, Hin|].
      rewrite (Hout a Hnin). unfold h1.
      rewrite upd_same, base_of_with_base. exact Hvis.
    + intros k Hk. rewrite Hout by (intros H; apply Hk; right; exact H).
      unfold h1. apply upd_other. intros ->. apply Hk. left. reflexivity.
    + intros k. destruct (Hg k) as (Hg1 & Hc1). unfold h1 in Hg1, Hc1.
      destruct (Nat.eq_dec k a) as [-> | Hne].
      * rewrite upd_same in Hg1, Hc1. rewrite base_of_with_base in Hg1.
        split.
        -- eapply same_geometry_trans; [exact Hgeo | exact Hg1].
        -- eapply same_class_trans; [apply same_class_with_base | exact Hc1].
      * rewrite upd_other in Hg1, Hc1 by exact Hne. split; assumption.
Qed.

(** X16: when every joint of the robot has its indicator,
    [set_robot_visibility] never raises.  Given the flag the robot already
    has it returns at once, without looking at the joints.  Given the other
    flag it leaves every listed joint with [visible] equal to the flag and
    (if there is at least one joint) the robot's [is_shown] equal to it,
    without changing any joint's origin, tip, axes, angles, length or class,
    and without touching joints outside the list. *)
Theorem set_robot_visibility_broadcast (r : Robot) (h : store) (v : bool) :
  (forall k, In k (joints r) ->
             exists f, graphic_ref (base_of (h k)) = Some f) ->
  exists r' h',
    set_robot_visibility r h v = Ok (r', h') /\
    (v = is_shown r -> r' = r /\ h' = h) /\
    (v <> is_shown r ->
       joints r' = joints r /\ num_joints r' = num_joints r /\
       (joints r <> [] -> is_shown r' = v) /\
       (forall k, In k (joints r) -> visible (base_of (h' k)) = v) /\
       (forall k, ~ In k (joints r) -> h' k = h k) /\
       (forall k, same_geometry (base_of (h k)) (base_of (h' k)) /\
                  same_class (h k) (h' k))).
Proof.
  intros Hind. unfold set_robot_visibility.
  destruct (eqb v (is_shown r)) eqn:E; simpl.
  - apply eqb_prop in E. exists r, h. split; [reflexivity|].
    split; [auto | intros H; contradiction].
  - apply eqb_false_iff in E.
    destruct (show_joints_run v (joints r) r h Hind)
      as (r' & h' & Hrun & Hrest).
    exists r', h'. split; [exact Hrun|].
    split; [intros H; contradiction | intros _; exact Hrest].
Qed.

(** ** Visibility of the indicators of a whole robot *)

Lemma with_base_same_geometry (j : Joint) (b : DefaultJoint) :
  same_geometry (base_of j) b ->
  same_geometry (base_of j) (base_of (with_base j b)).
Proof. rewrite base_of_with_base. auto. Qed.

Lemma indicator_redrawn_step (v : bool) (j0 j : Joint) :
  j = j0 \/ indicator_redrawn v j0 j ->
  indicator_redrawn v j0
    (with_base j (draw_reference_frame (base_of j) v)).
Proof.
  intros [-> | (Hg & Hc & Hi)]; unfold indicator_redrawn;
    rewrite base_of_with_base.
  - split; [apply draw_reference_frame_geometry|].
    split; [apply same_class_with_base|].
    intros f Hf. destruct v.
    + apply draw_reference_frame_show, Hf.
    + apply (draw_reference_frame_hide _ f Hf).
  - split.
    { eapply same_geometry_trans;
        [exact Hg | apply draw_reference_frame_geometry]. }
    split.
    { eapply same_class_trans; [exact Hc | apply same_class_with_base]. }
    intros f Hf. specialize (Hi f Hf).
    rewrite <- (indicator_at_tip_same _ _ _ Hg). destruct v.
    + rewrite (draw_reference_frame_show _ _ Hi). reflexivity.
    + rewrite (draw_reference_frame_hide _ _ Hi). reflexivity.
Qed.

Lemma set_reference_visibility_run (v : bool) (h0 : store) (l : list nat)
                                   (h : store) :
  (forall k, h k = h0 k \/ indicator_redrawn v (h0 k) (h k)) ->
  let h' :=
    fold_left
      (fun h joint =>
         upd h joint
           (with_base (h joint)
              (draw_reference_frame (base_of (h joint)) v)))
      l h in
  (forall k, In k l -> indicator_redrawn v (h0 k) (h' k)) /\
  (forall k, h' k = h0 k \/ indicator_redrawn v (h0 k) (h' k)) /\
  (forall k, ~ In k l -> h' k = h k).
Proof.
  revert h. induction l as [|a l IH]; intros h Hinv; cbv zeta.
  - simpl. split; [intros k []|]. split; [exact Hinv | reflexivity].
  - simpl.
    set (h1 := upd h a
                 (with_base (h a) (draw_reference_frame (base_of (h a)) v))).
    assert (Ha : indicator_redrawn v (h0 a) (h1 a)).
    { unfold h1. rewrite upd_same. apply indicator_redrawn_step, Hinv. }
    assert (Hinv1 : forall k,
               h1 k = h0 k \/ indicator_redrawn v (h0 k) (h1 k)).
    { intros k. destruct (Nat.eq_dec k a) as [-> | Hne].
      - right. exact Ha.
      - unfold h1. rewrite upd_other by exact Hne. apply Hinv. }
    destruct (IH h1 Hinv1) as (Hin & Hall & Hout).
    split; [|split].
    + intros k [<- | Hk]; [|apply Hin, Hk].
      destruct (in_dec Nat.eq_dec a l) as [Hal | Hal]; [apply Hin, Hal|].
      rewrite (Hout a Hal). exact Ha.
    + exact Hall.
    + intros k Hk. rewrite Hout by (intros H; apply Hk; right; exact H).
      unfold h1. apply upd_other. intros ->. apply Hk. left. reflexivity.
Qed.

(** X17: [set_reference_visibility(False)] hides the indicator of every
    listed joint and puts it at the joint's tip, moving no joint and touching
    no joint outside the list; a following
    [set_reference_visibility(True)] leaves every one of those indicators
    hidden, because showing never writes the flag. *)
Theorem set_reference_visibility_hides_for_good (r : Robot) (h : store) :
  (forall k, In k (joints r) ->
             exists f, graphic_ref (base_of (h k)) = Some f) ->
  let h1 := set_reference_visibility r h false in
  let h2 := set_reference_visibility r h1 true in
  (forall k, In k (joints r) ->
     graphic_ref (base_of (h1 k))
     = Some (indicator_at_tip (base_of (h k)) false) /\
     graphic_ref (base_of (h2 k))
     = Some (indicator_at_tip (base_of (h k)) false)) /\
  (forall k, same_geometry (base_of (h k)) (base_of (h1 k)) /\
             same_geometry (base_of (h k)) (base_of (h2 k))) /\
  (forall k, ~ In k (joints r) -> h1 k = h k /\ h2 k = h k).
Proof.
  intros Hind. cbv zeta. unfold set_reference_visibility.
  destruct (set_reference_visibility_run false h (joints r) h)
    as (Hin1 & Hall1 & Hout1).
  { intros k. left. reflexivity. }
  set (h1 := fold_left _ (joints r) h) in *.
  destruct (set_reference_visibility_run true h1 (joints r) h1)
    as (Hin2 & Hall2 & Hout2).
  { intros k. left. reflexivity. }
  set (h2 := fold_left _ (joints r) h1) in *.
  split; [|split].
  - intros k Hk. destruct (Hind k Hk) as [f Hf].
    destruct (Hin1 k Hk) as (Hg1 & _ & Hi1).
    specialize (Hi1 f Hf). split; [exact Hi1|].
    destruct (Hin2 k Hk) as (_ & _ & Hi2).
    rewrite (Hi2 _ Hi1). cbn [frame_visible indicator_at_tip].
    rewrite (indicator_at_tip_same _ _ false Hg1). reflexivity.
  - intros k.
    assert (G1 : same_geometry (base_of (h k)) (base_of (h1 k))).
    { destruct (Hall1 k) as [-> | (Hg & _)];
        [apply same_geometry_refl | exact Hg]. }
    split; [exact G1|].
    destruct (Hall2 k) as [-> | (Hg & _)]; [exact G1|].
    eapply same_geometry_trans; [exact G1 | exact Hg].
  - intros k Hk. rewrite (Hout2 k Hk), (Hout1 k Hk). split; reflexivity.
Qed.

(** ** Moving and turning commute *)

Lemma framed_after_update_position (j : DefaultJoint) (p : vector) :
  framed j -> framed (update_position j p).
Proof.
  intros H. destruct (update_position_frame j p) as (Ex & Ey & Ez & El).
  unfold framed. rewrite Ex, Ey, Ez, El. exact H.
Qed.

(** X18: on a joint of positive length built on a proper display object,
    moving and turning commute: turning the joint and then moving it to a
    point gives the same origin, tip, axes, accumulated angles and length
    as moving it there first and turning it afterwards. *)
Theorem move_and_turn_commute (j : DefaultJoint) (p : vector) (a : R)
                              (ax : vector) :
  reachable proper_pose j -> 0 < joint_length j ->
  same_geometry (update_position (update_orientation j a ax) p)
                (update_orientation (update_position j p) a ax).
Proof.
  intros H Hpos. destruct (reachable_good j H) as (Hp & Ht & Hf & _).
  set (j2 := update_position j p).
  assert (Hp2 : posed j2) by (apply posed_after_update_position, Hp).
  assert (Ht2 : tracked j2) by (apply tracked_after_update_position, Ht).
  assert (Hf2 : framed j2) by (apply framed_after_update_position, Hf).
  destruct (update_position_same_shape j p)
    as (Sx & Sy & Sz & Srx & Sry & Srz & Sl).
  fold j2 in Sx, Sy, Sz, Srx, Sry, Srz, Sl.
  assert (Hpos2 : 0 < joint_length j2) by (rewrite Sl; exact Hpos).
  destruct (update_orientation_turns j a ax Hp Ht Hf Hpos)
    as (_ & Ex & Ey & Ez & Et).
  destruct (update_orientation_turns j2 a ax Hp2 Ht2 Hf2 Hpos2)
    as (_ & Ex2 & Ey2 & Ez2 & Et2).
  assert (Er : fst (select_axis j2 a ax) = fst (select_axis j a ax))
    by (rewrite !select_axis_fst, Sx, Sy, Sz; reflexivity).
  destruct (update_orientation_rotations_case j a ax) as (Rx & Ry & Rz).
  destruct (update_orientation_rotations_case j2 a ax) as (Rx2 & Ry2 & Rz2).
  destruct (update_position_same_shape (update_orientation j a ax) p)
    as (Ux & Uy & Uz & Urx & Ury & Urz & Ul).
  unfold same_geometry.
  rewrite Ex2, Ey2, Ez2, Et2, Er, Rx2, Ry2, Rz2, Sx, Sy, Sz, Srx, Sry, Srz.
  rewrite Ux, Uy, Uz, Urx, Ury, Urz, Ul, Ex, Ey, Ez, Rx, Ry, Rz.
  rewrite !update_orientation_joint_length, Sl.
  rewrite update_orientation_connect_from, update_position_connect_to.
  rewrite Et, update_orientation_connect_from.
  unfold j2. rewrite !update_position_connect_from, span_update_position.
  repeat split. apply vec_eq; simpl; ring.
Qed.

(** ** Rebuilding the robot after a joint was turned *)

Lemma position_joints_upstream (r : Robot) (h0 : store) (t : nat)
                               (l : list nat) (h : store) :
  NoDup (joints r) ->
  (forall i cur prev,
     (1 <= i <= t)%nat ->
     nth_error (joints r) i = Some cur ->
     nth_error (joints r) (i - 1) = Some prev ->
     connect_from (base_of (h0 cur)) = connect_to (base_of (h0 prev))) ->
  (forall i, In i l -> (1 <= i < length (joints r))%nat) ->
  (forall i c, (i <= t)%nat -> nth_error (joints r) i = Some c ->
               same_geometry (base_of (h0 c)) (base_of (h c))) ->
  exists h',
    for_each (position_joint r) l h = Ok h' /\
    forall i c, (i <= t)%nat -> nth_error (joints r) i = Some c ->
                same_geometry (base_of (h0 c)) (base_of (h' c)).
Proof.
  intros Hnd Hglued. revert h. induction l as [|i l IH]; intros h Hl Hsame.
  - exists h. split; [reflexivity | exact Hsame].
  - assert (Hi : (1 <= i < length (joints r))%nat)
      by (apply Hl; left; reflexivity).
    simpl. unfold position_joint at 1.
    destruct (nth_error (joints r) i) as [cur|] eqn:Ecur.
    2:{ apply nth_error_None in Ecur. lia. }
    destruct (nth_error (joints r) (i - 1)) as [prev|] eqn:Eprev.
    2:{ apply nth_error_None in Eprev. lia. }
    simpl. apply IH.
    + intros i' Hi'. apply Hl. right. exact Hi'.
    + intros i' c Hle Ec.
      destruct (Nat.eq_dec c cur) as [-> | Hne].
      * assert (i' = i) by (apply (nth_error_distinct _ _ _ _ Hnd Ec Ecur)).
        subst i'.
        rewrite call_update_position_same. unfold get_connection_to_pos.
        assert (E : connect_to (base_of (h prev))
                    = connect_from (base_of (h cur))).
        { destruct (Hsame (i - 1)%nat prev) as (_ & Et & _);
            [lia | exact Eprev |].
          destruct (Hsame i cur Hle Ecur) as (Ef & _).
          rewrite Et, Ef. symmetry.
          apply (Hglued i cur prev); [lia | exact Ecur | exact Eprev]. }
        rewrite E.
        eapply same_geometry_trans;
          [apply (Hsame i cur Hle Ecur) | apply update_position_to_origin].
      * rewrite call_update_position_other by exact Hne.
        apply (Hsame i' c Hle Ec).
Qed.

(** X19: turning one joint of a glued chain of distinct joints and then
    building the robot again over the same joints re-glues the chain: the
    constructor returns normally, the turned joint and every joint before it
    keep origin, tip, axes, angles and length, and every joint after it is
    only translated (span, axes and angles kept) onto the new tips. *)
Theorem turn_then_rebuild (r : Robot) (h : store) (t k : nat) (a : R)
                          (ax : vector) :
  NoDup (joints r) -> contiguous r h ->
  nth_error (joints r) t = Some k ->
  let h1 := call_update_orientation h k a ax in
  exists r' h',
    Robot_init (joints r) h1 = Ok (r', h') /\
    joints r' = joints r /\
    contiguous r' h' /\
    (forall i c, (i <= t)%nat -> nth_error (joints r) i = Some c ->
                 same_geometry (base_of (h1 c)) (base_of (h' c))) /\
    (forall c, same_shape (base_of (h1 c)) (base_of (h' c))).
Proof.
  intros Hnd Hc Hk. cbv zeta.
  set (h1 := call_update_orientation h k a ax).
  set (r' := {| joints := joints r; num_joints := length (joints r);
                is_shown := true |}).
  destruct (position_joints_contiguous r' h1 Hnd eq_refl)
    as (h' & Hrun & Hc').
  destruct (position_joints_run r' (seq 1 (length (joints r) - 1)) h1)
    as (h2 & Hrun2 & Hshape & _).
  { intros i Hi. apply seq_from_one, Hi. }
  destruct (position_joints_upstream r' h1 t
              (seq 1 (length (joints r) - 1)) h1 Hnd)
    as (h3 & Hrun3 & Hup).
  { intros i cur prev Hi Ecur Eprev. cbn [joints r'] in Ecur, Eprev.
    assert (Hprev : prev <> k).
    { intros ->.
      pose proof (nth_error_distinct _ _ _ _ Hnd Eprev Hk). lia. }
    unfold h1. rewrite (call_update_orientation_other _ _ _ _ _ Hprev).
    destruct (Nat.eq_dec cur k) as [-> | Hcur].
    - rewrite call_update_orientation_same,
              update_orientation_connect_from.
      apply (Hc i k prev); [lia | exact Ecur | exact Eprev].
    - rewrite (call_update_orientation_other _ _ _ _ _ Hcur).
      apply (Hc i cur prev); [lia | exact Ecur | exact Eprev]. }
  { intros i Hi. apply seq_from_one, Hi. }
  { intros i c _ _. apply same_geometry_refl. }
  unfold position_joints in Hrun. cbn [num_joints joints r'] in Hrun.
  cbn [joints r'] in Hrun2, Hrun3.
  rewrite Hrun in Hrun2, Hrun3.
  injection Hrun2 as <-. injection Hrun3 as <-.
  exists r', h'. split.
  { unfold Robot_init, position_joints. cbn [num_joints joints].
    fold r'. rewrite Hrun. reflexivity. }
  split; [reflexivity|]. split; [exact Hc'|]. split.
  - exact Hup.
  - intros c. apply (Hshape c).
Qed.

(** ** Rebuilding the robot after a joint was moved *)

Lemma update_position_restores (j0 j : DefaultJoint) :
  same_shape j0 j ->
  same_geometry j0 (update_position j (connect_from j0)).
Proof.
  intros (Hs & Hx & Hy & Hz & Rx & Ry & Rz & Hl).
  destruct (update_position_same_shape j (connect_from j0))
    as (Ex & Ey & Ez & Erx & Ery & Erz & El).
  unfold same_geometry.
  rewrite Ex, Ey, Ez, Erx, Ery, Erz, El, update_position_connect_from.
  repeat split; try assumption.
  rewrite update_position_connect_to.
  unfold span in Hs.
  apply (f_equal vx) in Hs as Hsx. apply (f_equal vy) in Hs as Hsy.
  apply (f_equal vz) in Hs as Hsz. simpl in Hsx, Hsy, Hsz.
  apply vec_eq; simpl; lra.
Qed.

Lemma position_joints_snap_back (r : Robot) (h0 : store) (t k : nat)
                                (m s : nat) (h : store) :
  NoDup (joints r) -> contiguous r h0 ->
  nth_error (joints r) t = Some k ->
  (1 <= s)%nat -> (s + m <= length (joints r))%nat ->
  (forall c, (c = k /\ (s <= t)%nat /\
              same_shape (base_of (h0 c)) (base_of (h c))) \/
             same_geometry (base_of (h0 c)) (base_of (h c))) ->
  exists h',
    for_each (position_joint r) (seq s m) h = Ok h' /\
    forall c, (c = k /\ (s + m <= t)%nat /\
               same_shape (base_of (h0 c)) (base_of (h' c))) \/
              same_geometry (base_of (h0 c)) (base_of (h' c)).
Proof.
  intros Hnd Hc Hk. revert s h.
  induction m as [|m IH]; intros s h Hs Hlen Hinv.
  - exists h. split; [reflexivity|]. intros c.
    destruct (Hinv c) as [(E & Hle & Hsh) | Hg]; [left | right; exact Hg].
    split; [exact E|]. split; [lia | exact Hsh].
  - simpl. unfold position_joint at 1.
    destruct (nth_error (joints r) s) as [cur|] eqn:Ecur.
    2:{ apply nth_error_None in Ecur. lia. }
    destruct (nth_error (joints r) (s - 1)) as [prev|] eqn:Eprev.
    2:{ apply nth_error_None in Eprev. lia. }
    simpl.
    assert (Hglue : connect_from (base_of (h0 cur))
                    = connect_to (base_of (h0 prev)))
      by (apply (Hc s cur prev); [lia | exact Ecur | exact Eprev]).
    assert (Hprev : same_geometry (base_of (h0 prev)) (base_of (h prev))).
    { destruct (Hinv prev) as [(E & Hle & _) | Hg]; [|exact Hg].
      subst prev.
      pose proof (nth_error_distinct _ _ _ _ Hnd Eprev Hk). lia. }
    assert (Ep : get_connection_to_pos (base_of (h prev))
                 = connect_from (base_of (h0 cur))).
    { unfold get_connection_to_pos. destruct Hprev as (_ & Et & _).
      rewrite Et. symmetry. exact Hglue. }
    rewrite Ep.
    destruct (IH (S s)
                (call_update_position h cur (connect_from (base_of (h0 cur)))))
      as (h' & Hrun & Hres); [lia | lia | |].
    + intros c. destruct (Nat.eq_dec c cur) as [-> | Hne].
      * right. rewrite call_update_position_same.
        apply update_position_restores.
        destruct (Hinv cur) as [(_ & _ & Hsh) | Hg]; [exact Hsh|].
        destruct Hg as (Hf & Ht & Hx & Hy & Hz & Rx & Ry & Rz & Hl).
        unfold same_shape, span. rewrite Hf, Ht.
        repeat split; assumption.
      * rewrite call_update_position_other by exact Hne.
        destruct (Hinv c) as [(E & Hle & Hsh) | Hg]; [|right; exact Hg].
        left. split; [exact E|]. split; [|exact Hsh].
        assert (s <> t).
        { intros ->. rewrite Hk in Ecur. injection Ecur as <-.
          apply Hne. exact E. }
        lia.
    + exists h'. split; [exact Hrun|]. intros c.
      destruct (Hres c) as [(E & Hle & Hsh) | Hg]; [left | right; exact Hg].
      split; [exact E|]. split; [lia | exact Hsh].
Qed.

(** X20: moving a joint other than the base joint of a glued chain of
    distinct joints and then building the robot again over the same joints
    undoes the move: the constructor returns normally and every joint has
    the origin, tip, axes, angles and length it had before the move. *)
Theorem move_then_rebuild (r : Robot) (h : store) (t k : nat) (p : vector) :
  NoDup (joints r) -> contiguous r h ->
  nth_error (joints r) t = Some k -> (1 <= t)%nat ->
  exists r' h',
    Robot_init (joints r) (call_update_position h k p) = Ok (r', h') /\
    joints r' = joints r /\
    (forall c, same_geometry (base_of (h c)) (base_of (h' c))) /\
    contiguous r' h'.
Proof.
  intros Hnd Hc Hk Ht.
  set (r' := {| joints := joints r; num_joints := length (joints r);
                is_shown := true |}).
  assert (Hlen : (t < length (joints r))%nat)
    by (apply nth_error_Some; congruence).
  destruct (position_joints_snap_back r' h t k (length (joints r) - 1) 1
              (call_update_position h k p) Hnd Hc Hk)
    as (h' & Hrun & Hres); [lia | cbn [joints r']; lia | |].
  { intros c. destruct (Nat.eq_dec c k) as [-> | Hne].
    - left. split; [reflexivity|]. split; [exact Ht|].
      rewrite call_update_position_same. apply update_position_shape.
    - right. rewrite call_update_position_other by exact Hne.
      apply same_geometry_refl. }
  assert (Hsame : forall c, same_geometry (base_of (h c)) (base_of (h' c))).
  { intros c. destruct (Hres c) as [(_ & Hle & _) | Hg]; [lia | exact Hg]. }
  exists r', h'. split.
  { unfold Robot_init, position_joints. cbn [num_joints joints].
    fold r'. cbn [joints r'] in Hrun. rewrite Hrun. reflexivity. }
  split; [reflexivity|]. split; [exact Hsame|].
  intros i cur prev Hi Ecur Eprev.
  destruct (Hsame cur) as (Ef & _). destruct (Hsame prev) as (_ & Et' & _).
  rewrite Ef, Et'. apply (Hc i cur prev Hi Ecur Eprev).
Qed.

(** ** When the x vector points at the tip *)

Lemma mag_along_x (d : R) : 0 <= d -> mag (mkvec d 0 0) = d.
Proof.
  intros H. unfold mag, dot. simpl.
  replace (d * d + 0 * 0 + 0 * 0) with (d * d) by ring.
  apply sqrt_square, H.
Qed.

(** X21: a joint built on the placeholder along +x, with its tip at least
    0.1 away from its origin, has its x vector equal to the vector from
    origin to tip; and on any joint of positive length built on a proper
    display object, once the x vector equals that vector it still does
    after [update_position], [update_orientation] and
    [draw_reference_frame]. *)
Theorem x_vector_points_at_tip :
  (forall from axis d,
     1 / 10 <= d ->
     let j := DefaultJoint_init from (from +v mkvec d 0 0)%vec axis None in
     x_vector j = span j /\ joint_length j = d) /\
  (forall j,
     reachable proper_pose j -> 0 < joint_length j ->
     x_vector j = span j ->
     (forall p, x_vector (update_position j p)
                = span (update_position j p)) /\
     (forall a ax, x_vector (update_orientation j a ax)
                   = span (update_orientation j a ax)) /\
     (forall v, x_vector (draw_reference_frame j v)
                = span (draw_reference_frame j v))).
Proof.
  split.
  - intros from axis d Hd. cbv zeta.
    assert (Es : ((from +v mkvec d 0 0) -v from)%vec = mkvec d 0 0)
      by (apply vec_eq; simpl; ring).
    unfold span, DefaultJoint_init, update_reference_frame. cbv zeta.
    cbn [x_vector joint_length graphic_obj set_graphic default_box obj_axis
         obj_length obj_width obj_height connect_from connect_to].
    rewrite placeholder_length, Es, mag_along_x by lra.
    rewrite Rmax_left by exact Hd.
    split; [apply set_mag_along_x | reflexivity].
  - intros j H Hpos Hx.
    destruct (reachable_good j H) as (Hp & Ht & Hf & _).
    split; [|split].
    + intros p. rewrite span_update_position.
      destruct (update_position_frame j p) as (Ex & _).
      rewrite Ex. exact Hx.
    + intros a ax.
      destruct (update_orientation_turns j a ax Hp Ht Hf Hpos)
        as (_ & Ex & _).
      rewrite Ex, (span_after_turn j a ax Hp Ht Hf Hpos), Hx. reflexivity.
    + intros v.
      destruct (draw_reference_frame_geometry j v) as (Ef & Et & Ex & _).
      unfold span. rewrite Ef, Et, Ex. exact Hx.
Qed.

(** ** Concrete joints to run the theorems on *)

Lemma placeholder_length_positive (from to axis : vector) :
  0 < joint_length (DefaultJoint_init from to axis None).
Proof.
  change (0 < Rmax (Rmax (mag (to -v from)%vec) (1 / 10)) (1 / 10)).
  apply Rlt_le_trans with (1 / 10); [lra | apply Rmax_r].
Qed.

Lemma placeholder_reachable (from to axis : vector) :
  reachable proper_pose (DefaultJoint_init from to axis None).
Proof. apply reach_init. intros g E. discriminate E. Qed.

Lemma two_distinct : NoDup [0; 1]%nat.
Proof.
  constructor.
  - simpl. intros [E | []]. discriminate E.
  - constructor; [simpl; tauto | constructor].
Qed.

Lemma glued_pair (b0 b1 : DefaultJoint) :
  connect_from b1 = connect_to b0 ->
  contiguous {| joints := [0; 1]%nat; num_joints := 2; is_shown := true |}
             (fun k => if Nat.eqb k 0 then Default b0 else Default b1).
Proof.
  intros E i cur prev Hi Ecur Eprev.
  destruct i as [|[|i]]; [lia | | destruct i; discriminate Ecur].
  simpl in Ecur, Eprev. injection Ecur as <-. injection Eprev as <-.
  simpl. exact E.
Qed.

End Engine.

(** ** The theorems at concrete joints *)

Lemma invalid_axis_falls_back_to_y_witness :
  let j := DefaultJoint_init frame_at (mkvec 0 0 0) (mkvec 1 0 0)
                             (mkvec 1 0 0) None in
  let axis := mkvec 1 1 0 in
  (axis <> mkvec 1 0 0 /\ axis <> mkvec 0 1 0 /\ axis <> mkvec 0 0 1) /\
  update_orientation frame_at j 1 axis
  = update_orientation frame_at j 1 (mkvec 0 1 0) /\
  get_rotation_angle j axis = y_rotation j.
Proof.
  cbv zeta.
  assert (Hx : mkvec 1 1 0 <> mkvec 1 0 0)
    by (intros E; apply (f_equal vy) in E; simpl in E; lra).
  assert (Hy : mkvec 1 1 0 <> mkvec 0 1 0)
    by (intros E; apply (f_equal vx) in E; simpl in E; lra).
  assert (Hz : mkvec 1 1 0 <> mkvec 0 0 1)
    by (intros E; apply (f_equal vx) in E; simpl in E; lra).
  split; [auto|].
  destruct (invalid_axis_falls_back_to_y frame_at
              (DefaultJoint_init frame_at (mkvec 0 0 0) (mkvec 1 0 0)
                                 (mkvec 1 0 0) None)
              1 (mkvec 1 1 0) Hx Hy Hz) as (E1 & _ & _ & _ & _ & E2).
  split; assumption.
Defined.

Lemma rotations_always_wrapped_witness :
  let j := RotationalJoint
             (update_orientation frame_at
                (DefaultJoint_init frame_at (mkvec 0 0 0) (mkvec 1 0 0)
                                   (mkvec 1 0 0) None)
                4 (mkvec 0 1 0))
             (mkvec 0 1 0) in
  reachable frame_at (fun _ => True) (base_of j) /\
  rotations_wrapped (base_of j).
Proof.
  cbv zeta.
  assert (H : reachable frame_at (fun _ => True)
                (base_of
                   (RotationalJoint
                      (update_orientation frame_at
                         (DefaultJoint_init frame_at (mkvec 0 0 0)
                            (mkvec 1 0 0) (mkvec 1 0 0) None)
                         4 (mkvec 0 1 0))
                      (mkvec 0 1 0)))).
  { simpl. apply reach_orientation, reach_init. intros g _. exact I. }
  split; [exact H|].
  apply (rotations_always_wrapped frame_at _ H).
Defined.


Lemma empty_robot_visibility_unchanged_witness :
  let r := {| joints := []; num_joints := 0; is_shown := true |} in
  let h : store :=
    fun _ => Default (DefaultJoint_init frame_at (mkvec 0 0 0) (mkvec 1 0 0)
                                        (mkvec 1 0 0) None) in
  (joints r = [] /\ false <> is_shown r) /\
  exists r' h', set_robot_visibility r h false = Ok (r', h') /\
                is_shown r' = is_shown r /\ is_shown r' <> false /\
                r' = r /\ h' = h.
Proof.
  cbv zeta. split.
  - split; [reflexivity | simpl; discriminate].
  - apply empty_robot_visibility_unchanged.
    + reflexivity.
    + simpl. discriminate.
Defined.

Lemma chain_contiguous_after_propagation_witness :
  let h : store :=
    fun _ => Default (DefaultJoint_init frame_at (mkvec 0 0 0) (mkvec 1 0 0)
                                        (mkvec 1 0 0) None) in
  NoDup [0; 1]%nat /\
  exists r h', Robot_init frame_at [0; 1]%nat h = Ok (r, h') /\
               joints r = [0; 1]%nat /\ contiguous r h'.
Proof.
  cbv zeta.
  assert (H : NoDup [0; 1]%nat).
  { constructor.
    - simpl. intros [E | []]. discriminate E.
    - constructor; [simpl; tauto | constructor]. }
  split; [exact H|].
  apply (chain_contiguous_after_propagation frame_at [0; 1]%nat _ H).
Defined.

(** A joint listed twice is moved onto its own old tip, which takes its
    tip further: the propagation pass glues distinct joints only. *)
Lemma shared_joint_not_contiguous :
  let A := DefaultJoint_init frame_at (mkvec 0 0 0) (mkvec 1 0 0)
                             (mkvec 1 0 0) None in
  let h : store := fun _ => Default A in
  let r := {| joints := [0; 0]%nat; num_joints := 2; is_shown := true |} in
  let h' := call_update_position frame_at h 0 (mkvec 1 0 0) in
  Robot_init frame_at [0; 0]%nat h = Ok (r, h') /\ ~ contiguous r h'.
Proof.
  cbv zeta. split; [reflexivity|].
  intros Hc.
  specialize (Hc 1%nat 0%nat 0%nat Nat.lt_0_1 eq_refl eq_refl).
  rewrite call_update_position_same in Hc.
  rewrite update_position_connect_from, update_position_connect_to in Hc.
  unfold base_of in Hc. rewrite DefaultJoint_init_connect_to in Hc.
  apply (f_equal vx) in Hc. simpl in Hc. lra.
Qed.

(** C1 as stated fails: in a robot of two joints laid out from (0,0,0) to
    (1,0,0), the second joint sits on the first one's tip when the
    constructor returns; moving the second joint to (5,0,0), or turning the
    first one by π/2 about y, leaves the chain unglued, because no
    propagation pass follows. *)
Lemma joint_call_breaks_contiguity :
  let A := DefaultJoint_init frame_at (mkvec 0 0 0) (mkvec 1 0 0)
                             (mkvec 1 0 0) None in
  let h : store := fun _ => Default A in
  let r := {| joints := [0; 1]%nat; num_joints := 2; is_shown := true |} in
  let h' := call_update_position frame_at h 1 (mkvec 1 0 0) in
  Robot_init frame_at [0; 1]%nat h = Ok (r, h') /\
  (2 <= length (joints r))%nat /\
  connect_from (base_of (h' 1%nat)) = connect_to (base_of (h' 0%nat)) /\
  ~ contiguous r (call_update_position frame_at h' 1 (mkvec 5 0 0)) /\
  ~ contiguous r (call_update_orientation frame_at h' 0 (PI / 2)
                                          (mkvec 0 1 0)).
Proof.
  cbv zeta. split; [reflexivity|]. split; [simpl; lia|].
  split; [| split].
  - rewrite call_update_position_same, update_position_connect_from.
    rewrite call_update_position_other by discriminate.
    reflexivity.
  - intros Hc.
    specialize (Hc 1%nat 1%nat 0%nat Nat.lt_0_1 eq_refl eq_refl).
    rewrite call_update_position_same, update_position_connect_from in Hc.
    rewrite !call_update_position_other in Hc by discriminate.
    unfold base_of in Hc. rewrite DefaultJoint_init_connect_to in Hc.
    apply (f_equal vx) in Hc. simpl in Hc. lra.
  - intros Hc.
    specialize (Hc 1%nat 1%nat 0%nat Nat.lt_0_1 eq_refl eq_refl).
    rewrite call_update_orientation_same in Hc.
    rewrite call_update_orientation_other in Hc by discriminate.
    rewrite call_update_position_same, update_position_connect_from in Hc.
    rewrite call_update_position_other in Hc by discriminate.
    unfold base_of in Hc.
    rewrite unit_segment_turned_tip in Hc.
    apply (f_equal vx) in Hc. simpl in Hc. lra.
Qed.

(** ** The further theorems at concrete joints *)

Lemma set_joint_visibility_never_raises_witness :
  let A := DefaultJoint_init frame_at (mkvec 0 0 0) (mkvec 1 0 0)
                             (mkvec 1 0 0) None in
  reachable frame_at proper_pose A /\
  exists j', set_joint_visibility A false = Ok j' /\ visible j' = false.
Proof.
  cbv zeta. split; [apply placeholder_reachable|].
  destruct (set_joint_visibility_never_raises frame_at proper_pose _ false
              (placeholder_reachable frame_at (mkvec 0 0 0) (mkvec 1 0 0)
                                     (mkvec 1 0 0)))
    as (j' & E & Hv & _).
  exists j'. split; assumption.
Defined.

Lemma hidden_indicator_stays_hidden_witness :
  let A := DefaultJoint_init frame_at (mkvec 0 0 0) (mkvec 1 0 0)
                             (mkvec 1 0 0) None in
  reachable frame_at proper_pose A /\
  graphic_ref (draw_reference_frame frame_at
                 (draw_reference_frame frame_at A false) true)
  = Some (indicator_at_tip A false).
Proof.
  cbv zeta. split; [apply placeholder_reachable|].
  apply (hidden_indicator_stays_hidden frame_at proper_pose _
           (placeholder_reachable frame_at (mkvec 0 0 0) (mkvec 1 0 0)
                                  (mkvec 1 0 0))).
Defined.

Lemma display_follows_joint_witness :
  let A := DefaultJoint_init frame_at (mkvec 0 0 0) (mkvec 1 0 0)
                             (mkvec 1 0 0) None in
  reachable frame_at proper_pose A /\
  exists f, graphic_ref A = Some f /\
    obj_pos (graphic_obj (update_position frame_at A (mkvec 3 4 5)))
    = connect_from (update_position frame_at A (mkvec 3 4 5)).
Proof.
  cbv zeta. split; [apply placeholder_reachable|].
  destruct (display_follows_joint frame_at proper_pose _
              (placeholder_reachable frame_at (mkvec 0 0 0) (mkvec 1 0 0)
                                     (mkvec 1 0 0)))
    as (f & Hf & Hall).
  exists f. split; [exact Hf|].
  apply (Hall _ (or_introl (ex_intro _ (mkvec 3 4 5) eq_refl))).
Defined.

Lemma update_orientation_is_rotation_witness :
  let A := DefaultJoint_init frame_at (mkvec 0 0 0) (mkvec 1 0 0)
                             (mkvec 1 0 0) None in
  let A' := update_orientation frame_at A 1 (mkvec 0 0 1) in
  (reachable frame_at proper_pose A /\ 0 < joint_length A) /\
  connect_from A' = connect_from A /\ mag (span A') = mag (span A).
Proof.
  cbv zeta. split.
  - split; [apply placeholder_reachable | apply placeholder_length_positive].
  - destruct (update_orientation_is_rotation frame_at _ 1 (mkvec 0 0 1)
                (placeholder_reachable frame_at (mkvec 0 0 0) (mkvec 1 0 0)
                                       (mkvec 1 0 0))
                (placeholder_length_positive frame_at (mkvec 0 0 0)
                                             (mkvec 1 0 0) (mkvec 1 0 0)))
      as (Ef & _ & _ & _ & _ & Em & _).
    split; assumption.
Defined.


Lemma turns_compose_witness :
  let A := DefaultJoint_init frame_at (mkvec 0 0 0) (mkvec 1 0 0)
                             (mkvec 1 0 0) None in
  (reachable frame_at proper_pose A /\ 0 < joint_length A) /\
  same_geometry A
    (update_orientation frame_at
       (update_orientation frame_at A 2 (mkvec 0 1 0)) (- 2) (mkvec 0 1 0)).
Proof.
  cbv zeta. split.
  - split; [apply placeholder_reachable | apply placeholder_length_positive].
  - apply (turns_compose frame_at _ 2 0 (mkvec 0 1 0)
             (placeholder_reachable frame_at (mkvec 0 0 0) (mkvec 1 0 0)
                                    (mkvec 1 0 0))
             (placeholder_length_positive frame_at (mkvec 0 0 0)
                                          (mkvec 1 0 0) (mkvec 1 0 0))).
Defined.

Lemma frame_is_right_handed_witness :
  let A := update_orientation frame_at
             (DefaultJoint_init frame_at (mkvec 0 0 0) (mkvec 1 0 0)
                                (mkvec 1 0 0) None)
             1 (mkvec 1 0 0) in
  reachable frame_at proper_pose A /\
  cross (x_vector A) (y_vector A) = vscale (joint_length A) (z_vector A).
Proof.
  cbv zeta.
  assert (H : reachable frame_at proper_pose
                (update_orientation frame_at
                   (DefaultJoint_init frame_at (mkvec 0 0 0) (mkvec 1 0 0)
                                      (mkvec 1 0 0) None)
                   1 (mkvec 1 0 0)))
    by (apply reach_orientation, placeholder_reachable).
  split; [exact H|].
  apply (frame_is_right_handed frame_at _ H).
Defined.

Lemma rotate_joint_is_absolute_witness :
  let A := DefaultJoint_init frame_at (mkvec 0 0 0) (mkvec 1 0 0)
                             (mkvec 1 0 0) None in
  (reachable frame_at proper_pose A /\ 0 < joint_length A) /\
  exists b1 b2 b2',
    rotate_joint frame_at (RotationalJoint A (mkvec 0 1 0)) 1
    = Ok (RotationalJoint b1 (mkvec 0 1 0)) /\
    rotate_joint frame_at (RotationalJoint b1 (mkvec 0 1 0)) 2
    = Ok (RotationalJoint b2 (mkvec 0 1 0)) /\
    rotate_joint frame_at (RotationalJoint A (mkvec 0 1 0)) 2
    = Ok (RotationalJoint b2' (mkvec 0 1 0)) /\
    same_geometry b2' b2.
Proof.
  cbv zeta. split.
  - split; [apply placeholder_reachable | apply placeholder_length_positive].
  - destruct (rotate_joint_is_absolute frame_at _ (mkvec 0 1 0) 1 2
                (placeholder_reachable frame_at (mkvec 0 0 0) (mkvec 1 0 0)
                                       (mkvec 1 0 0))
                (placeholder_length_positive frame_at (mkvec 0 0 0)
                                             (mkvec 1 0 0) (mkvec 1 0 0)))
      as (b1 & b2 & b2' & E1 & E2 & E3 & Hs & _).
    exists b1, b2, b2'.
    split; [exact E1|]. split; [exact E2|]. split; [exact E3 | exact Hs].
Defined.

Lemma move_and_turn_commute_witness :
  let A := DefaultJoint_init frame_at (mkvec 0 0 0) (mkvec 1 0 0)
                             (mkvec 1 0 0) None in
  (reachable frame_at proper_pose A /\ 0 < joint_length A) /\
  same_geometry
    (update_position frame_at
       (update_orientation frame_at A 1 (mkvec 0 1 0)) (mkvec 3 4 5))
    (update_orientation frame_at
       (update_position frame_at A (mkvec 3 4 5)) 1 (mkvec 0 1 0)).
Proof.
  cbv zeta. split.
  - split; [apply placeholder_reachable | apply placeholder_length_positive].
  - apply (move_and_turn_commute frame_at);
      [apply placeholder_reachable | apply placeholder_length_positive].
Defined.

Lemma second_pass_changes_nothing_witness :
  let A := DefaultJoint_init frame_at (mkvec 0 0 0) (mkvec 1 0 0)
                             (mkvec 1 0 0) None in
  let B := DefaultJoint_init frame_at (mkvec 1 0 0) (mkvec 2 0 0)
                             (mkvec 1 0 0) None in
  let r := {| joints := [0; 1]%nat; num_joints := 2; is_shown := true |} in
  let h : store := fun k => if Nat.eqb k 0 then Default A else Default B in
  (contiguous r h /\ num_joints r = length (joints r)) /\
  exists h', position_joints frame_at r h = Ok h' /\ contiguous r h'.
Proof.
  cbv zeta. split.
  - split; [apply glued_pair; reflexivity | reflexivity].
  - destruct (second_pass_changes_nothing frame_at
                {| joints := [0; 1]%nat; num_joints := 2; is_shown := true |}
                _ (glued_pair
                   (DefaultJoint_init frame_at (mkvec 0 0 0) (mkvec 1 0 0)
                   (mkvec 1 0 0) None)
                   (DefaultJoint_init frame_at (mkvec 1 0 0) (mkvec 2 0 0)
                   (mkvec 1 0 0) None)
                   eq_refl) eq_refl)
      as (h' & Hrun & _ & Hc).
    exists h'. split; assumption.
Defined.

Lemma chain_layout_witness :
  let A := DefaultJoint_init frame_at (mkvec 0 0 0) (mkvec 1 0 0)
                             (mkvec 1 0 0) None in
  let h : store := fun _ => Default A in
  NoDup [0; 1]%nat /\
  exists r h',
    Robot_init frame_at [0; 1]%nat h = Ok (r, h') /\
    connect_from (base_of (h' 1%nat))
    = sum_spans h [0%nat] (connect_from (base_of (h 0%nat))) /\
    connect_to (base_of (h' 1%nat))
    = sum_spans h [0; 1]%nat (connect_from (base_of (h 0%nat))).
Proof.
  cbv zeta. split; [exact two_distinct|].
  destruct (chain_layout frame_at 0 [1]%nat
              (fun _ => Default
                          (DefaultJoint_init frame_at (mkvec 0 0 0)
                             (mkvec 1 0 0) (mkvec 1 0 0) None))
              two_distinct) as (r & h' & Hrun & Hall).
  exists r, h'. split; [exact Hrun|].
  exact (Hall 1%nat 1%nat eq_refl).
Defined.

Lemma set_robot_visibility_broadcast_witness :
  let A := DefaultJoint_init frame_at (mkvec 0 0 0) (mkvec 1 0 0)
                             (mkvec 1 0 0) None in
  let r := {| joints := [0; 1]%nat; num_joints := 2; is_shown := true |} in
  let h : store := fun _ => Default A in
  (forall k, In k (joints r) ->
             exists f, graphic_ref (base_of (h k)) = Some f) /\
  exists r' h', set_robot_visibility r h false = Ok (r', h').
Proof.
  cbv zeta.
  assert (H : forall k : nat,
            In k [0; 1]%nat ->
            exists f,
              graphic_ref
                (base_of
                   (Default
                      (DefaultJoint_init frame_at (mkvec 0 0 0)
                         (mkvec 1 0 0) (mkvec 1 0 0) None))) = Some f)
    by (intros k _; eexists; reflexivity).
  split; [exact H|].
  destruct (set_robot_visibility_broadcast
              {| joints := [0; 1]%nat; num_joints := 2; is_shown := true |}
              (fun _ => Default
                          (DefaultJoint_init frame_at (mkvec 0 0 0)
                             (mkvec 1 0 0) (mkvec 1 0 0) None))
              false H) as (r' & h' & Hrun & _).
  exists r', h'. exact Hrun.
Defined.

Lemma set_reference_visibility_hides_for_good_witness :
  let A := DefaultJoint_init frame_at (mkvec 0 0 0) (mkvec 1 0 0)
                             (mkvec 1 0 0) None in
  let r := {| joints := [0; 1]%nat; num_joints := 2; is_shown := true |} in
  let h : store := fun _ => Default A in
  (forall k, In k (joints r) ->
             exists f, graphic_ref (base_of (h k)) = Some f) /\
  forall k, ~ In k (joints r) ->
    set_reference_visibility frame_at r h false k = h k /\
    set_reference_visibility frame_at r
      (set_reference_visibility frame_at r h false) true k = h k.
Proof.
  cbv zeta.
  assert (H : forall k : nat,
            In k [0; 1]%nat ->
            exists f,
              graphic_ref
                (base_of
                   (Default
                      (DefaultJoint_init frame_at (mkvec 0 0 0)
                         (mkvec 1 0 0) (mkvec 1 0 0) None))) = Some f)
    by (intros k _; eexists; reflexivity).
  split; [exact H|].
  apply (set_reference_visibility_hides_for_good frame_at
           {| joints := [0; 1]%nat; num_joints := 2; is_shown := true |}
           (fun _ => Default
                       (DefaultJoint_init frame_at (mkvec 0 0 0)
                          (mkvec 1 0 0) (mkvec 1 0 0) None))
           H).
Defined.

Lemma turn_then_rebuild_witness :
  let A := DefaultJoint_init frame_at (mkvec 0 0 0) (mkvec 1 0 0)
                             (mkvec 1 0 0) None in
  let B := DefaultJoint_init frame_at (mkvec 1 0 0) (mkvec 2 0 0)
                             (mkvec 1 0 0) None in
  let r := {| joints := [0; 1]%nat; num_joints := 2; is_shown := true |} in
  let h : store := fun k => if Nat.eqb k 0 then Default A else Default B in
  (NoDup (joints r) /\ contiguous r h /\
   nth_error (joints r) 0 = Some 0%nat) /\
  exists r' h',
    Robot_init frame_at (joints r)
      (call_update_orientation frame_at h 0 (PI / 2) (mkvec 0 1 0))
    = Ok (r', h') /\
    contiguous r' h'.
Proof.
  cbv zeta. split.
  - split; [exact two_distinct|].
    split; [apply glued_pair; reflexivity | reflexivity].
  - destruct (turn_then_rebuild frame_at
                {| joints := [0; 1]%nat; num_joints := 2; is_shown := true |}
                _ 0 0 (PI / 2) (mkvec 0 1 0)
                two_distinct (glued_pair
                   (DefaultJoint_init frame_at (mkvec 0 0 0) (mkvec 1 0 0)
                   (mkvec 1 0 0) None)
                   (DefaultJoint_init frame_at (mkvec 1 0 0) (mkvec 2 0 0)
                   (mkvec 1 0 0) None)
                   eq_refl) eq_refl)
      as (r' & h' & Hrun & _ & Hc & _).
    exists r', h'. split; assumption.
Defined.

Lemma move_then_rebuild_witness :
  let A := DefaultJoint_init frame_at (mkvec 0 0 0) (mkvec 1 0 0)
                             (mkvec 1 0 0) None in
  let B := DefaultJoint_init frame_at (mkvec 1 0 0) (mkvec 2 0 0)
                             (mkvec 1 0 0) None in
  let r := {| joints := [0; 1]%nat; num_joints := 2; is_shown := true |} in
  let h : store := fun k => if Nat.eqb k 0 then Default A else Default B in
  (NoDup (joints r) /\ contiguous r h /\
   nth_error (joints r) 1 = Some 1%nat /\ (1 <= 1)%nat) /\
  exists r' h',
    Robot_init frame_at (joints r)
      (call_update_position frame_at h 1 (mkvec 5 0 0))
    = Ok (r', h') /\
    forall c, same_geometry (base_of (h c)) (base_of (h' c)).
Proof.
  cbv zeta. split.
  - split; [exact two_distinct|].
    split; [apply glued_pair; reflexivity|].
    split; [reflexivity | apply le_n].
  - destruct (move_then_rebuild frame_at
                {| joints := [0; 1]%nat; num_joints := 2; is_shown := true |}
                _ 1 1 (mkvec 5 0 0)
                two_distinct (glued_pair
                   (DefaultJoint_init frame_at (mkvec 0 0 0) (mkvec 1 0 0)
                   (mkvec 1 0 0) None)
                   (DefaultJoint_init frame_at (mkvec 1 0 0) (mkvec 2 0 0)
                   (mkvec 1 0 0) None)
                   eq_refl) eq_refl (le_n 1))
      as (r' & h' & Hrun & _ & Hs & _).
    exists r', h'. split; assumption.
Defined.
